(** * Orbit correction solvers of ocelot (ocelot/cpbd/orbit_correction.py)

    A shallow embedding of the correction-solver layer: the truncated-SVD
    pseudo-inverse ([OrbitSVD]), the greedy column selection ([MICADO]),
    the minimax linear program ([LInfinityNorm]), the assembly of the
    combined orbit/dispersion/regularisation system ([Orbit.correction])
    and the response-matrix measurement routines.

    Numbers.  The program computes with IEEE doubles; here every number is
    an exact rational in canonical form ([Qc]), so infinities and NaN are
    outside the model.  Where the program would produce one (a division by
    a singular value that is zero, [OrbitSVD.inverts_zero]) or raise on a
    degenerate input ([max] of an empty sequence, a finite difference over a
    zero step, [np.append] of rows of unequal length), the statements carry
    the hypothesis that excludes it.  Rounding matters where the program
    adds a step and takes it off again: the measurement routines are
    therefore written over an arithmetic [Arith] that is a parameter, the
    exact one being an instance.

    Arrays.  A 1-D numpy array is a [list Qc]; a 2-D array is the list of
    its rows.  The column count of an array is the length of its first row,
    so an array with zero rows has zero columns in this model.

    External routines.  [numpy.linalg.svd], [numpy.sqrt] and
    [scipy.optimize.linprog] are parameters of the development; what is
    known about them is stated as explicit contracts ([svd_shape],
    [svd_spec], [lp_optimal]) and only used where a statement says so.

    Objects.  A list of elements stands for a list of pairwise distinct
    objects.  Where the program writes to an element that it reaches
    through such a list, a statement assumes that no object is listed
    twice, in the form that the ids in the list are pairwise distinct. *)

From Stdlib Require String.
Import String.StringSyntax.
Delimit Scope string_scope with string.
From Stdlib Require Import QArith Qcanon List Lia Lqa Bool Arith PeanoNat.
From Stdlib Require Import Permutation FinFun Sorted.
Import ListNotations.

Local Open Scope Qc_scope.

(** ** Numbers *)

Definition Qcleb (x y : Qc) : bool := Qle_bool x y.
Definition Qcltb (x y : Qc) : bool := negb (Qle_bool y x).
Definition Qceqb (x y : Qc) : bool := Qeq_bool x y.

Definition Qcmin' (x y : Qc) : Qc := if Qcltb y x then y else x.
Definition Qcmax' (x y : Qc) : Qc := if Qcltb x y then y else x.

(** An exact square root on the rationals that are squares of rationals;
    on other inputs it returns the root of the integer parts of numerator
    and denominator.  It stands for [numpy.sqrt] in closed examples, all of
    which apply it to exact squares only. *)
Definition sqrt_exact (q : Qc) : Qc :=
  Q2Qc (Z.sqrt (Qnum q) # Pos.sqrt (Qden q)).

(** ** Vectors: 1-D arrays *)

Definition vector := list Qc.

Definition vsum (v : vector) : Qc := fold_right Qcplus 0 v.

(** [numpy.dot] of two 1-D arrays. *)
Definition dot (u v : vector) : Qc :=
  vsum (map (fun p => fst p * snd p) (combine u v)).

Definition vscale (a : Qc) (v : vector) : vector := map (Qcmult a) v.
Definition vneg (v : vector) : vector := map Qcopp v.
Definition vsub (u v : vector) : vector :=
  map (fun p => fst p - snd p) (combine u v).
Definition vzeros (n : nat) : vector := repeat 0 n.

(** Squared Euclidean norm, [sum(v**2)]. *)
Definition norm2 (v : vector) : Qc := vsum (map (fun a => a * a) v).

(** [l[i] = v] on a list; an index out of range leaves the list as it is
    (numpy raises there; the program never does it). *)
Fixpoint list_set {A} (i : nat) (v : A) (l : list A) : list A :=
  match l, i with
  | [], _ => []
  | _ :: t, O => v :: t
  | h :: t, S j => h :: list_set j v t
  end.

(** ** Matrices: 2-D arrays, as lists of rows *)

Definition matrix := list (list Qc).

Definition nrows (M : matrix) : nat := length M.
Definition ncols (M : matrix) : nat :=
  match M with [] => O | r :: _ => length r end.

(** [M[:, j]] *)
Definition col (j : nat) (M : matrix) : vector := map (fun r => nth j r 0) M.

(** [M[:, j].reshape(m, -1)]: the column as an m-by-1 array. *)
Definition col_matrix (j : nat) (M : matrix) : matrix :=
  map (fun r => [nth j r 0]) M.

Definition entry (M : matrix) (i j : nat) : Qc := nth j (nth i M []) 0.

Definition transpose (M : matrix) : matrix :=
  map (fun j => col j M) (seq 0 (ncols M)).

(** [numpy.dot] of a 2-D with a 1-D array. *)
Definition mat_vec (M : matrix) (v : vector) : vector :=
  map (fun r => dot r v) M.

(** [numpy.dot] of two 2-D arrays. *)
Definition mat_mul (A B : matrix) : matrix :=
  map (fun r => map (fun j => dot r (col j B)) (seq 0 (ncols B))) A.

Definition mscale (a : Qc) (M : matrix) : matrix := map (vscale a) M.
Definition mneg (M : matrix) : matrix := map vneg M.

(** [numpy.eye(n)] *)
Definition eye (n : nat) : matrix :=
  map (fun i => map (fun j => if Nat.eqb i j then 1 else 0) (seq 0 n))
      (seq 0 n).

(** [numpy.zeros((r, c))] *)
Definition zeros (r c : nat) : matrix := repeat (vzeros c) r.

(** [numpy.zeros_like(M)] *)
Definition zeros_like (M : matrix) : matrix :=
  map (fun r => vzeros (length r)) M.

(** [numpy.ones((r, c))] *)
Definition ones (r c : nat) : matrix := repeat (repeat 1 c) r.

(** [numpy.diag(v)] for a 1-D [v]. *)
Definition diag (v : vector) : matrix :=
  map (fun i => map (fun j => if Nat.eqb i j then nth i v 0 else 0)
                    (seq 0 (length v)))
      (seq 0 (length v)).

(** [numpy.hstack((A, B))] for arrays with the same number of rows. *)
Definition hstack (A B : matrix) : matrix :=
  map (fun p => fst p ++ snd p) (combine A B).

(** [numpy.vstack((A, B))] *)
Definition vstack (A B : matrix) : matrix := A ++ B.

(** [scipy.linalg.block_diag] of two arrays. *)
Definition block_diag2 (A B : matrix) : matrix :=
  map (fun r => r ++ vzeros (ncols B)) A ++
  map (fun r => vzeros (ncols A) ++ r) B.

(** [scipy.linalg.block_diag(A, B, C)] *)
Definition block_diag (A B C : matrix) : matrix :=
  block_diag2 (block_diag2 A B) C.

(** ** Index helpers: [numpy.argmin], [min], [numpy.argsort] *)

(** First position of the least element, scanning left to right and
    replacing the running best only by a strictly smaller value. *)
Fixpoint argmin_from (best : nat) (bv : Qc) (i : nat) (l : list Qc) : nat :=
  match l with
  | [] => best
  | x :: t => if Qcltb x bv then argmin_from i x (S i) t
              else argmin_from best bv (S i) t
  end.

Definition argmin (l : list Qc) : nat :=
  match l with
  | [] => O
  | x :: t => argmin_from O x 1%nat t
  end.

Definition list_min (l : list Qc) : Qc :=
  match l with
  | [] => 0
  | x :: t => fold_left Qcmin' t x
  end.

(** [max(l)].  Python raises ValueError on an empty sequence; here the
    value is 0, and the statements that depend on it assume a non-empty
    list. *)
Definition list_max (l : list Qc) : Qc :=
  match l with
  | [] => 0
  | x :: t => fold_left Qcmax' t x
  end.

(** Stable insertion of a (key, index) pair in front of a list sorted by
    key whose entries all have larger indices. *)
Fixpoint insert_key (p : nat * nat) (l : list (nat * nat)) : list (nat * nat) :=
  match l with
  | [] => [p]
  | q :: t => if Nat.leb (fst p) (fst q) then p :: q :: t
              else q :: insert_key p t
  end.

(** [numpy.argsort] of an integer array: the indices that sort it. *)
Definition argsort (l : list nat) : list nat :=
  map snd (fold_right insert_key [] (combine l (seq 0 (length l)))).

(** [a[idx]] with an integer index array. *)
Definition take_indices (a : vector) (idx : list nat) : vector :=
  map (fun i => nth i a 0) idx.

(** ** OrbitSVD: truncated pseudo-inverse *)

Module OrbitSVD.

(** The solver object: [self.epsilon_x], [self.epsilon_y]. *)
Record t := { epsilon_x : Qc; epsilon_y : Qc }.

(** [OrbitSVD()] with the default thresholds 0.001. *)
Definition default : t :=
  {| epsilon_x := Q2Qc (1 # 1000); epsilon_y := Q2Qc (1 # 1000) |}.

(** The loop [for i in range(len(s))] that fills [s_inv]; [half] is
    [int(len(s)/2.)] and [i] the index of the head of [s]. *)
Fixpoint s_inv_loop (self : t) (s_max : Qc) (half i : nat) (s : vector)
  : vector :=
  match s with
  | [] => []
  | si :: rest =>
      let epsilon := if Nat.ltb i half then epsilon_x self
                     else epsilon_y self in
      (if Qcleb si (s_max * epsilon) then 0 else 1 / si)
        :: s_inv_loop self s_max half (S i) rest
  end.

Definition s_inv (self : t) (s : vector) : vector :=
  s_inv_loop self (list_max s) (Nat.div (length s) 2) 0 s.



(** The branch taken for each singular value in the same loop: [true]
    where the value is inverted (retained), [false] where it is zeroed. *)
Fixpoint kept_loop (self : t) (s_max : Qc) (half i : nat) (s : vector)
  : list bool :=
  match s with
  | [] => []
  | si :: rest =>
      let epsilon := if Nat.ltb i half then epsilon_x self
                     else epsilon_y self in
      negb (Qcleb si (s_max * epsilon))
        :: kept_loop self s_max half (S i) rest
  end.

Definition kept (self : t) (s : vector) : list bool :=
  kept_loop self (list_max s) (Nat.div (length s) 2) 0 s.



(** [Sinv = zeros((m, n)); Sinv[:len(s), :len(s)] = diag(s_inv)] *)
Definition Sinv_matrix (m n : nat) (sinv : vector) : matrix :=
  map (fun i =>
         map (fun j => if Nat.eqb i j && Nat.ltb i (length sinv)
                       then nth i sinv 0 else 0)
             (seq 0 n))
      (seq 0 m).

(** The part of [apply] after the call of [svd]. *)
Definition pseudo_inverse (self : t) (usv : matrix * vector * matrix)
  : matrix :=
  let '(U, s, V) := usv in
  let Sinv := Sinv_matrix (nrows U) (nrows V) (s_inv self s) in
  let Sinv := transpose Sinv in
  mat_mul (transpose V) (mat_mul Sinv (transpose U)).

Section WithSvd.
  (** [numpy.linalg.svd]: returns [(U, s, V)], [V] being the transposed
      right factor. *)
Variable svd : matrix -> matrix * vector * matrix.

Definition apply (self : t) (resp_matrix : matrix) (orbit : vector)
             (weights : option matrix) : vector :=
    let weights := match weights with
                   | None => eye (length orbit)
                   | Some w => w
                   end in
    let resp_matrix := mat_mul weights resp_matrix in
    let misallign := mat_vec weights orbit in
    let A := pseudo_inverse self (svd resp_matrix) in
    mat_vec A misallign.
End WithSvd.

End OrbitSVD.

(** ** MICADO: greedy selection of columns *)

Module MICADO.

Record t := { epsilon_x : Qc; epsilon_y : Qc; epsilon_ksi : Qc }.

(** [swap_columns(m, col1, col2)]; the array [m] is changed in place, the
    function returns its new contents. *)
Definition swap_columns (m : matrix) (col1 col2 : nat) : matrix :=
  map (fun r =>
         let c1 := nth col1 r 0 in
         let c2 := nth col2 r 0 in
         list_set col2 c1 (list_set col1 c2 r))
      m.

(** [mask[[n, index]] = mask[[index, n]]] *)
Definition swap_mask (mask : list nat) (n index : nat) : list nat :=
  let a := nth index mask O in
  let b := nth n mask O in
  list_set index b (list_set n a mask).

(** [angle[:len(angles_part)] = angles_part[:]] *)
Definition assign_prefix (angle angles_part : vector) : vector :=
  angles_part ++ skipn (length angles_part) angle.

(** The variables of [apply] that live across iterations.  [resp_matrix]
    is the caller's array; [swaps] is a history variable that records the
    arguments of every call of [swap_columns]. *)
Record state := {
  resp_matrix : matrix;
  mask : list nat;
  orb_residual : list Qc;
  angle : vector;
  angles_part : vector;
  resp_matrix_part : matrix;
  resp_vector : matrix;
  swaps : list (nat * nat)
}.

Section WithSvd.
Variable svd : matrix -> matrix * vector * matrix.
Variable sqrt : Qc -> Qc.
Variable self : t.
Variable orbit : vector.

  (** Body of the inner loop for candidate column [i]: the sub-solution
      and its residual. *)
Definition candidate (weights : option matrix) (part M : matrix) (i : nat)
    : vector * Qc :=
    let resp_vector := col_matrix i M in
    let resp_matrix_tmp := hstack part resp_vector in
    let svd_method :=
      {| OrbitSVD.epsilon_x := epsilon_x self;
         OrbitSVD.epsilon_y := epsilon_y self |} in
    let angles_part :=
      OrbitSVD.apply svd svd_method resp_matrix_tmp orbit weights in
    let new_orbit := mat_vec resp_matrix_tmp angles_part in
    let res := sqrt (norm2 (vsub new_orbit orbit)) in
    (angles_part, res).

  (** [for i in range(n, ncols)]: returns the last [angles_part] and the
      list [residual]. *)
Fixpoint inner_loop (weights : option matrix) (part M : matrix)
           (idxs : list nat) (angles_part : vector) (residual : list Qc)
    : vector * list Qc :=
    match idxs with
    | [] => (angles_part, residual)
    | i :: rest =>
        let '(ap, res) := candidate weights part M i in
        inner_loop weights part M rest ap (residual ++ [res])
    end.

  (** The test of line 109. *)
Definition converged (orb_residual : list Qc) : bool :=
    let k := length orb_residual in
    Nat.ltb 1 k &&
    Qcltb (nth (k - 2) orb_residual 0 - nth (k - 1) orb_residual 0)
          (epsilon_ksi self).

  (** [for n in range(ncols)], with its [break]. *)
Fixpoint outer_loop (weights : option matrix) (ncol : nat) (ns : list nat)
           (st : state) : state :=
    match ns with
    | [] => st
    | n :: rest =>
        let part := hstack (resp_matrix_part st) (resp_vector st) in
        let '(ap, residual) :=
          inner_loop weights part (resp_matrix st) (seq n (ncol - n))
                     (angles_part st) [] in
        let index := (argmin residual + n)%nat in
        let orb := orb_residual st ++ [list_min residual] in
        let rv := col_matrix index (resp_matrix st) in
        let st' :=
          {| resp_matrix := swap_columns (resp_matrix st) n index;
             mask := swap_mask (mask st) n index;
             orb_residual := orb;
             angle := angle st;
             angles_part := ap;
             resp_matrix_part := part;
             resp_vector := rv;
             swaps := swaps st ++ [(n, index)] |} in
        if converged orb
        then {| resp_matrix := resp_matrix st';
                mask := mask st';
                orb_residual := orb;
                angle := assign_prefix (angle st') ap;
                angles_part := ap;
                resp_matrix_part := part;
                resp_vector := rv;
                swaps := swaps st' |}
        else outer_loop weights ncol rest st'
    end.

Definition init (resp_matrix : matrix) : state :=
    let bpm_num := nrows resp_matrix in
    {| resp_matrix := resp_matrix;
       mask := seq 0 (ncols resp_matrix);
       orb_residual := [];
       angle := vzeros (ncols resp_matrix);
       angles_part := [];
       resp_matrix_part := repeat [] bpm_num;
       resp_vector := repeat [] bpm_num;
       swaps := [] |}.

  (** The whole run of [apply]: the state when the loop is left.  The
      [weights] argument is overwritten with [None] on entry. *)
Definition run (resp_matrix : matrix) (weights : option matrix) : state :=
    let weights : option matrix := None in
    outer_loop weights (ncols resp_matrix) (seq 0 (ncols resp_matrix))
               (init resp_matrix).

  (** The value returned: [angle[np.argsort(mask)]]. *)
Definition apply (resp_matrix : matrix) (weights : option matrix)
    : vector :=
    let st := run resp_matrix weights in
    take_indices (angle st) (argsort (mask st)).

  (** The caller's array after the call. *)
Definition resp_matrix_after (resp_matrix : matrix)
             (weights : option matrix) : matrix :=
    MICADO.resp_matrix (run resp_matrix weights).
End WithSvd.

End MICADO.

(** ** LInfinityNorm: minimax correction by linear programming *)

Module LInfinityNorm.

(** The cost vector: [f = zeros(n + 1); f[-1] = 1]. *)
Definition cost (n : nat) : vector := list_set n 1 (vzeros (n + 1)).

(** [Ane]: the rows [(M, -1)] stacked on the rows [(-M, -1)]. *)
Definition Ane (resp_matrix : matrix) : matrix :=
  let m := nrows resp_matrix in
  vstack (hstack resp_matrix (mneg (ones m 1)))
         (hstack (mneg resp_matrix) (mneg (ones m 1))).

(** [bne = vstack((+orbit, -orbit))], read by the solver as its 2m upper
    bounds in row order. *)
Definition bne (orbit : vector) : vector := orbit ++ vneg orbit.

(** What [linprog(c, A_ub=A, b_ub=b)] solves when called, as here, without
    [bounds]: minimise [c.x] subject to [A x <= b] and to the default
    bounds [(0, None)] of scipy, that is [x >= 0] in every component. *)
Definition lp_feasible (A : matrix) (b x : vector) : Prop :=
  length x = ncols A /\
  Forall2 Qcle (mat_vec A x) b /\
  Forall (Qcle 0) x.

Definition lp_optimal (c : vector) (A : matrix) (b x : vector) : Prop :=
  lp_feasible A b x /\
  forall y, lp_feasible A b y -> dot c x <= dot c y.

Section WithLinprog.
  (** [linprog(c, A_ub, b_ub)["x"]] *)
Variable linprog : vector -> matrix -> vector -> vector.

Definition apply (resp_matrix : matrix) (orbit : vector)
             (weights : option matrix) : vector :=
    let n := ncols resp_matrix in
    let f := cost n in
    let x := linprog f (Ane resp_matrix) (bne orbit) in
    removelast x.
End WithLinprog.

(** The largest residual [max_i |(M a - e)_i|], as the least [t] with
    [-t <= (M a - e)_i <= t] for every row. *)
Definition within (t : Qc) (M : matrix) (e a : vector) : Prop :=
  Forall (fun r => - t <= r /\ r <= t) (vsub (mat_vec M a) e).

End LInfinityNorm.

(** ** Orbit: the correction session *)

Module Monitor.
Record t := {
  id : String.string;
  x : Qc; y : Qc;
  x_ref : Qc; y_ref : Qc;
  Dx : Qc; Dy : Qc;
  Dx_des : Qc; Dy_des : Qc;
  weight : Qc
}.
End Monitor.

(** A lattice element that a routine perturbs: a corrector ([angle], step
    [dI]) or a magnet with an offset ([dx], [dy]). *)
Module Element.
Record t := {
  id : String.string;
  angle : Qc;
  dI : Qc;
  dx : Qc;
  dy : Qc
}.

Definition set_angle (e : t) (a : Qc) : t :=
  {| id := id e; angle := a; dI := dI e; dx := dx e; dy := dy e |}.
Definition set_dx (e : t) (v : Qc) : t :=
  {| id := id e; angle := angle e; dI := dI e; dx := v; dy := dy e |}.
Definition set_dy (e : t) (v : Qc) : t :=
  {| id := id e; angle := angle e; dI := dI e; dx := dx e; dy := v |}.
End Element.

(** The initial particle state passed to some routines. *)
Module Particle.
Record t := { x : Qc; px : Qc; y : Qc; py : Qc; E : Qc }.
End Particle.

(** The solver interface: [apply(resp_matrix, orbit, weights)]. *)
Definition solver := matrix -> vector -> option matrix -> vector.

(** [ResponseMatrix]: this file only calls its [extract]. *)
Record ResponseMatrix := {
  extract : list String.string -> list String.string -> matrix
}.

Module Orbit.

Record t := {
  bpms : list Monitor.t;
  hcors : list Element.t;
  vcors : list Element.t;
  response_matrix : ResponseMatrix;
  disp_response_matrix : option ResponseMatrix;
  orbit_solver : solver
}.

Definition get_orbit (self : t) : vector :=
  map (fun bpm => Monitor.x bpm - Monitor.x_ref bpm) (bpms self) ++
  map (fun bpm => Monitor.y bpm - Monitor.y_ref bpm) (bpms self).

Definition get_dispersion (self : t) : vector :=
  map (fun bpm => Monitor.Dx bpm - Monitor.Dx_des bpm) (bpms self) ++
  map (fun bpm => Monitor.Dy bpm - Monitor.Dy_des bpm) (bpms self).

(** [rm = zeros((n1+n2, m1+m2)); rm[:n1, :m1] = mat1; rm[n1:, m1:] = mat2] *)
Definition combine_matrices (mat1 mat2 : matrix) : matrix :=
  map (fun r => r ++ vzeros (ncols mat2)) mat1 ++
  map (fun r => vzeros (ncols mat1) ++ r) mat2.

Definition cor_list (self : t) : list String.string :=
  map Element.id (hcors self ++ vcors self).
Definition bpm_list (self : t) : list String.string :=
  map Monitor.id (bpms self).

(** The pieces of the combined system, named as in [correction]. *)
Definition RM (self : t) (alpha : Qc) : matrix :=
  mscale (1 - alpha)
         (extract (response_matrix self) (cor_list self) (bpm_list self)).

Definition orbit0 (self : t) (alpha : Qc) : vector :=
  vscale (1 - alpha) (get_orbit self).

Definition disp (self : t) (alpha : Qc) : vector :=
  if Qceqb alpha 0 then vscale alpha (orbit0 self alpha)
  else vscale alpha (get_dispersion self).

Definition DRM (self : t) (alpha : Qc) : matrix :=
  match disp_response_matrix self with
  | Some d => mscale alpha (extract d (cor_list self) (bpm_list self))
  | None => zeros_like (RM self alpha)
  end.

Definition b_mat (self : t) (alpha beta : Qc) : matrix :=
  mscale beta (eye (nrows (DRM self alpha))).

Definition b_orbit (self : t) (alpha : Qc) : vector :=
  vzeros (nrows (DRM self alpha)).

Definition rmatrix (self : t) (alpha beta : Qc) : matrix :=
  block_diag (RM self alpha) (DRM self alpha) (b_mat self alpha beta).

(** [np.append(orbit, [disp, b_orbit])]: the two-row array
    [[disp, b_orbit]] is flattened and appended.  numpy raises ValueError
    when the two rows differ in length ([appendable] is the test);
    [orbit] is the vector that is built when they do not. *)
Definition appendable (self : t) (alpha : Qc) : bool :=
  Nat.eqb (length (disp self alpha)) (length (b_orbit self alpha)).

Definition orbit (self : t) (alpha : Qc) : vector :=
  orbit0 self alpha ++ disp self alpha ++ b_orbit self alpha.

Definition bpm_weights (self : t) : vector := map Monitor.weight (bpms self).

Definition bpm_weights_diag (self : t) : matrix :=
  let w := bpm_weights self in
  combine_matrices (diag (w ++ w ++ w ++ w)) (diag (w ++ w)).

(** The vector returned by the solver in [correction]. *)
Definition solution (self : t) (alpha beta : Qc) : vector :=
  orbit_solver self (rmatrix self alpha beta) (orbit self alpha)
               (Some (bpm_weights_diag self)).

(** The loop over the correctors: [cor.angle -= ...].  [None] stands for
    the [IndexError] of an [angle] that is too short.  The loop writes to
    the corrector objects; the list returned holds the new state of each
    entry, which is the state of its object when no object is listed
    twice. *)
Fixpoint update_angles (alpha : Qc) (angle : vector) (ncor i : nat)
         (cors : list Element.t) : option (list Element.t) :=
  match cors with
  | [] => Some []
  | cor :: rest =>
      match nth_error angle i, nth_error angle (ncor + i) with
      | Some a_i, Some a_ni =>
          match update_angles alpha angle ncor (S i) rest with
          | Some rest' =>
              Some (Element.set_angle cor
                      (Element.angle cor
                       - ((1 - alpha) * a_i + alpha * a_ni)) :: rest')
          | None => None
          end
      | _, _ => None
      end
  end.

(** [p_init.x = -angle[-4]] and the three lines after it. *)
Definition update_p_init (angle : vector) (p : Particle.t)
  : option Particle.t :=
  let k := length angle in
  if Nat.ltb k 4 then None
  else Some {| Particle.x := - nth (k - 4) angle 0;
               Particle.px := - nth (k - 3) angle 0;
               Particle.y := - nth (k - 2) angle 0;
               Particle.py := - nth (k - 1) angle 0;
               Particle.E := Particle.E p |}.

(** [correction(alpha, beta, p_init)]: the session and [p_init] after the
    call; [None] when the call raises (ValueError of [np.append],
    IndexError of a solver vector that is too short). *)
Definition correction (self : t) (alpha beta : Qc)
           (p_init : option Particle.t)
  : option (t * option Particle.t) :=
  let angle := solution self alpha beta in
  let ncor := length (cor_list self) in
  if negb (appendable self alpha) then None else
  match update_angles alpha angle ncor 0 (hcors self ++ vcors self) with
  | None => None
  | Some cors =>
      let self' :=
        {| bpms := bpms self;
           hcors := firstn (length (hcors self)) cors;
           vcors := skipn (length (hcors self)) cors;
           response_matrix := response_matrix self;
           disp_response_matrix := disp_response_matrix self;
           orbit_solver := orbit_solver self |} in
      match p_init with
      | None => Some (self', None)
      | Some p =>
          match update_p_init angle p with
          | Some p' => Some (self', Some p')
          | None => None
          end
      end
  end.

End Orbit.

(** ** The arithmetic of the measurement routines

    The routines add a step to an attribute of an element and take it off
    again.  On doubles [(a + d) - d] need not be [a], so the operations on
    numbers are parameters here: [fadd], [fsub] and [fdiv] stand for [+],
    [-] and [/] of the program.  [exact_arith] is the arithmetic without
    rounding; a statement that names no arithmetic is about that one. *)

Class Arith := {
  fadd : Qc -> Qc -> Qc;
  fsub : Qc -> Qc -> Qc;
  fdiv : Qc -> Qc -> Qc
}.

#[global] Instance exact_arith : Arith :=
  {| fadd := Qcplus; fsub := Qcminus; fdiv := Qcdiv |}.

(** ** Response-matrix measurement routines

    The routines change the lattice in place and call the tracking code
    ([orbit.read_virtual_orbit]), which may raise.  They are written in a
    state-and-exception monad over the [world]: the lattice elements and
    the current monitor readings.  A raised exception keeps the world as it
    was when the exception left the routine.  The derived transfer maps
    ([create_transfer_map], [update_transfer_maps]) are not part of the
    world. *)

Module Measure.

Definition lattice := list Element.t.

Record world := {
  lat : lattice;
  readings : list (Qc * Qc)   (* (bpm.x, bpm.y) of orbit.bpms *)
}.

Inductive outcome (A : Type) : Type :=
| Ok (a : A)
| Raised.
Arguments Ok {A} a.
Arguments Raised {A}.

Definition M (A : Type) : Type := world -> outcome A * world.

Definition ret {A} (a : A) : M A := fun w => (Ok a, w).

Definition bind {A B} (c : M A) (k : A -> M B) : M B :=
  fun w =>
    match c w with
    | (Ok a, w') => k a w'
    | (Raised, w') => (Raised, w')
    end.

Notation "x <- c ;; k" := (bind c (fun x => k))
  (at level 61, c at next level, right associativity).
Notation "c ;;; k" := (bind c (fun _ => k))
  (at level 61, right associativity).

Definition modify_lattice (f : lattice -> lattice) : M unit :=
  fun w => (Ok tt, {| lat := f (lat w); readings := readings w |}).

Definition get_readings : M (list (Qc * Qc)) :=
  fun w => (Ok (readings w), w).

(** [for x in l: f(x)], collecting the results. *)
Fixpoint for_each {A B} (l : list A) (f : A -> M B) : M (list B) :=
  match l with
  | [] => ret []
  | a :: t => b <- f a ;; bs <- for_each t f ;; ret (b :: bs)
  end.

Section WithArith.
Context {ar : Arith}.

(** [elem.angle += corrector.dI] on every element with the corrector's id. *)
Definition change_corrector (corrector : Element.t) (l : lattice) : lattice :=
  map (fun elem =>
         if String.eqb (Element.id elem) (Element.id corrector)
         then Element.set_angle
                elem (fadd (Element.angle elem) (Element.dI corrector))
         else elem)
      l.

Definition restore_corrector (corrector : Element.t) (l : lattice) : lattice :=
  map (fun elem =>
         if String.eqb (Element.id elem) (Element.id corrector)
         then Element.set_angle
                elem (fsub (Element.angle elem) (Element.dI corrector))
         else elem)
      l.

Definition change_quad_position (quad : Element.t) (l : lattice)
           (dx dy : Qc) : lattice :=
  map (fun elem =>
         if String.eqb (Element.id elem) (Element.id quad)
         then Element.set_dy (Element.set_dx elem (fadd (Element.dx elem) dx))
                             (fadd (Element.dy elem) dy)
         else elem)
      l.


(** One column of [real_resp]: rows [j] and [j + m] for every monitor.
    A step of zero is outside the model: the program then raises
    ZeroDivisionError on Python floats and gets nan or inf on numpy
    scalars. *)
Definition column (now before : list (Qc * Qc)) (step : Qc) : vector :=
  map (fun p => fdiv (fsub (fst (fst p)) (fst (snd p))) step)
      (combine now before) ++
  map (fun p => fdiv (fsub (snd (fst p)) (snd (snd p))) step)
      (combine now before).

(** The array [real_resp] with the given columns and [r] rows. *)
Definition from_columns (r : nat) (cols : list vector) : matrix :=
  map (fun i => map (fun c => nth i c 0) cols) (seq 0 r).

Section WithTracking.
  (** [orbit.read_virtual_orbit(lattice, p_init)]: the new monitor
      readings, or [None] when the tracking raises. *)
Variable track : lattice -> option Particle.t -> option (list (Qc * Qc)).

Definition read_virtual_orbit (p_init : option Particle.t) : M unit :=
    fun w =>
      match track (lat w) p_init with
      | Some r => (Ok tt, {| lat := lat w; readings := r |})
      | None => (Raised, w)
      end.

  (** Loop body shared by the two loops of [measure_response_matrix]. *)
Definition measure_corrector (bpms : list (Qc * Qc)) (cor : Element.t)
    : M vector :=
    modify_lattice (change_corrector cor) ;;;
    read_virtual_orbit None ;;;
    now <- get_readings ;;
    modify_lattice (restore_corrector cor) ;;;
    ret (column now bpms (Element.dI cor)).

Definition measure_response_matrix (m : nat) (hcors vcors : list Element.t)
    : M matrix :=
    read_virtual_orbit None ;;;
    bpms <- get_readings ;;
    cx <- for_each hcors (measure_corrector bpms) ;;
    cy <- for_each vcors (measure_corrector bpms) ;;
    ret (from_columns (2 * m) (cx ++ cy)).








End WithTracking.
End WithArith.

End Measure.

(** ** The contract of [numpy.linalg.svd] *)

Fixpoint veqb (u v : vector) : bool :=
  match u, v with
  | [], [] => true
  | a :: u', b :: v' => Qceqb a b && veqb u' v'
  | _, _ => false
  end.

Fixpoint meqb (A B : matrix) : bool :=
  match A, B with
  | [], [] => true
  | r :: A', q :: B' => veqb r q && meqb A' B'
  | _, _ => false
  end.

(** An n-by-n array with orthonormal rows and columns. *)
Definition orthogonal (n : nat) (Q : matrix) : Prop :=
  nrows Q = n /\
  Forall (fun r => length r = n) Q /\
  mat_mul Q (transpose Q) = eye n /\
  mat_mul (transpose Q) Q = eye n.


(** The m-by-n array with [s] on its diagonal. *)
Definition rect_diag (m n : nat) (s : vector) : matrix :=
  map (fun i =>
         map (fun j => if Nat.eqb i j && Nat.ltb i (length s)
                       then nth i s 0 else 0)
             (seq 0 n))
      (seq 0 m).

Fixpoint descending (s : vector) : Prop :=
  match s with
  | [] => True
  | a :: t => match t with
              | [] => True
              | b :: _ => b <= a
              end /\ descending t
  end.


(** [svd(M)] returns [(U, s, V)] with [M = U diag(s) V], [U] and [V]
    orthogonal of sizes m and n, and the min(m, n) singular values
    non-negative in descending order. *)
Definition svd_spec (M : matrix) (usv : matrix * vector * matrix) : Prop :=
  let '(U, s, V) := usv in
  let m := nrows M in
  let n := ncols M in
  orthogonal m U /\
  orthogonal n V /\
  length s = Nat.min m n /\
  Forall (Qcle 0) s /\
  descending s /\
  M = mat_mul U (mat_mul (rect_diag m n s) V).


(** What is known about the result of [svd] whatever the rounding: for an
    m-by-n array it returns [U] of shape (m, m), [V] of shape (n, n) and
    min(m, n) singular values, none of them negative. *)
Definition svd_shape (M : matrix) (usv : matrix * vector * matrix) : Prop :=
  let '(U, s, V) := usv in
  nrows U = nrows M /\
  ncols U = nrows M /\
  nrows V = ncols M /\
  ncols V = ncols M /\
  length s = Nat.min (nrows M) (ncols M) /\
  Forall (Qcle 0) s.

Definition svd_shapeb (M : matrix) (usv : matrix * vector * matrix) : bool :=
  let '(U, s, V) := usv in
  Nat.eqb (nrows U) (nrows M) &&
  Nat.eqb (ncols U) (nrows M) &&
  Nat.eqb (nrows V) (ncols M) &&
  Nat.eqb (ncols V) (ncols M) &&
  Nat.eqb (length s) (Nat.min (nrows M) (ncols M)) &&
  forallb (Qcleb 0) s.

(** A decomposition for arrays that are already diagonal: identity
    factors and the diagonal as singular values.  It meets [svd_spec] on
    the arrays whose diagonal is non-negative and descending and whose
    other entries are zero; the closed examples use it on such arrays. *)
Definition svd_rect_diag (M : matrix) : matrix * vector * matrix :=
  (eye (nrows M),
   map (fun i => entry M i i) (seq 0 (Nat.min (nrows M) (ncols M))),
   eye (ncols M)).

(** ** Concrete sessions used in closed examples *)

Definition q (a : Z) (b : positive) : Qc := Q2Qc (a # b).

Definition bpm_at (name : String.string) (x y : Qc) : Monitor.t :=
  {| Monitor.id := name; Monitor.x := x; Monitor.y := y;
     Monitor.x_ref := 0; Monitor.y_ref := 0;
     Monitor.Dx := 0; Monitor.Dy := 0;
     Monitor.Dx_des := 0; Monitor.Dy_des := 0;
     Monitor.weight := 1 |}.

Definition cor_at (name : String.string) (angle dI : Qc) : Element.t :=
  {| Element.id := name; Element.angle := angle; Element.dI := dI;
     Element.dx := 0; Element.dy := 0 |}.

(** The solver [OrbitSVD(epsilon_x, epsilon_y)] over [svd_rect_diag]. *)
Definition svd_solver (eps_x eps_y : Qc) : solver :=
  OrbitSVD.apply svd_rect_diag
    {| OrbitSVD.epsilon_x := eps_x; OrbitSVD.epsilon_y := eps_y |}.

(** One monitor reading x = 1, one horizontal corrector, response 1 in x
    and 0 in y, default solver. *)
Definition session1 : Orbit.t :=
  {| Orbit.bpms := [bpm_at "b1"%string 1 0];
     Orbit.hcors := [cor_at "h1"%string 0 (q 1 1000)];
     Orbit.vcors := [];
     Orbit.response_matrix := {| extract := fun _ _ => [[1]; [0]] |};
     Orbit.disp_response_matrix := None;
     Orbit.orbit_solver := svd_solver (q 1 1000) (q 1 1000) |}.

(** One monitor reading (1, 1), one corrector per plane, responses 1 and
    1/10, thresholds 1/2 and 1/1000. *)
Definition response2 : matrix := [[1; 0]; [0; q 1 10]].

Definition session2 : Orbit.t :=
  {| Orbit.bpms := [bpm_at "b1"%string 1 1];
     Orbit.hcors := [cor_at "h1"%string 0 (q 1 1000)];
     Orbit.vcors := [cor_at "v1"%string 0 (q 1 1000)];
     Orbit.response_matrix := {| extract := fun _ _ => response2 |};
     Orbit.disp_response_matrix := None;
     Orbit.orbit_solver := svd_solver (q 1 2) (q 1 1000) |}.

(** The corrector angles after [correction], [None] when it raises. *)
Definition angles_after (r : option (Orbit.t * option Particle.t))
  : option vector :=
  match r with
  | Some (self', _) =>
      Some (map Element.angle (Orbit.hcors self' ++ Orbit.vcors self'))
  | None => None
  end.

Definition opt_veqb (a b : option vector) : bool :=
  match a, b with
  | Some u, Some v => veqb u v
  | None, None => true
  | _, _ => false
  end.

(** What [correction] does to the corrector angles: the call returns,
    keeps the correctors in order, and has taken
    [(1 - alpha) * a[i] + alpha * a[ncor + i]] off the angle of corrector
    [i], [a] being the vector returned by the solver; a [p_init] that was
    passed is returned with the last four components of [a], negated. *)
Definition angles_decreased_by_solution (self : Orbit.t) (alpha beta : Qc)
           (p_init : option Particle.t) : Prop :=
  let a := Orbit.solution self alpha beta in
  let cors := Orbit.hcors self ++ Orbit.vcors self in
  let ncor := length cors in
  exists self' p',
    Orbit.correction self alpha beta p_init = Some (self', p') /\
    length (Orbit.hcors self') = length (Orbit.hcors self) /\
    length (Orbit.vcors self') = length (Orbit.vcors self) /\
    (forall i cor,
        nth_error cors i = Some cor ->
        exists cor',
          nth_error (Orbit.hcors self' ++ Orbit.vcors self') i = Some cor' /\
          Element.id cor' = Element.id cor /\
          Element.angle cor'
          = Element.angle cor
            - ((1 - alpha) * nth i a 0 + alpha * nth (ncor + i) a 0)) /\
    match p_init with
    | None => p' = None
    | Some p =>
        p' = Some {| Particle.x := - nth (length a - 4) a 0;
                     Particle.px := - nth (length a - 3) a 0;
                     Particle.y := - nth (length a - 2) a 0;
                     Particle.py := - nth (length a - 1) a 0;
                     Particle.E := Particle.E p |}
    end.

(** A perturbation and the operation that takes it back. *)
Definition bracket : Type :=
  (Measure.lattice -> Measure.lattice) * (Measure.lattice -> Measure.lattice).

(** The lattice after each perturbation of the list was applied and taken
    back, in turn. *)
Definition round_trips (pairs : list bracket) (l : Measure.lattice)
  : Measure.lattice :=
  fold_left (fun l0 (pr : bracket) => snd pr (fst pr l0)) pairs l.



(** The pairs of the three routines. *)
Definition corrector_brackets {ar : Arith} (cors : list Element.t)
  : list bracket :=
  map (fun c => (Measure.change_corrector c, Measure.restore_corrector c))
      cors.






(** A lattice of one corrector at angle 0 with step 1/1000, and a tracking
    routine that raises as soon as a corrector angle is not zero. *)
Definition world9 : Measure.world :=
  {| Measure.lat := [cor_at "h1"%string 0 (q 1 1000)];
     Measure.readings := [(0, 0)] |}.



(** A 2-by-4 response with singular values 1 and 1/10. *)
Definition response1 : matrix := [[1; 0; 0; 0]; [0; q 1 10; 0; 0]].

Definition solver1 : OrbitSVD.t :=
  {| OrbitSVD.epsilon_x := q 1 2; OrbitSVD.epsilon_y := q 1 1000 |}.

(** A MICADO solver with the default thresholds. *)
Definition micado1 : MICADO.t :=
  {| MICADO.epsilon_x := q 1 1000; MICADO.epsilon_y := q 1 1000;
     MICADO.epsilon_ksi := q 1 100000 |}.

(** Every row of a 2-D array has the array's column count. *)
Definition rectangular (M : matrix) : Prop :=
  Forall (fun r => length r = ncols M) M.





(** ** Inputs of the closed examples for the further properties *)

(** One monitor, two columns, the second one carrying the response. *)
Definition response3 : matrix := [[0; 1]].

(** A 3-by-2 response of full column rank (singular values 2 and 1), a
    solver with thresholds 0, and a 2-by-2 zero response. *)
Definition response4 : matrix := [[q 2 1; 0]; [0; 1]; [0; 0]].



(** Two sessions that differ at most in the readings of monitors of
    weight zero: same correctors, response matrices and solver, monitors
    with the same ids and weights, and every monitor of non-zero weight
    identical. *)
Definition same_weighted_monitors (self self' : Orbit.t) : Prop :=
  Orbit.hcors self' = Orbit.hcors self /\
  Orbit.vcors self' = Orbit.vcors self /\
  Orbit.response_matrix self' = Orbit.response_matrix self /\
  Orbit.disp_response_matrix self' = Orbit.disp_response_matrix self /\
  Orbit.orbit_solver self' = Orbit.orbit_solver self /\
  map Monitor.id (Orbit.bpms self') = map Monitor.id (Orbit.bpms self) /\
  map Monitor.weight (Orbit.bpms self')
  = map Monitor.weight (Orbit.bpms self) /\
  (forall i b b',
      nth_error (Orbit.bpms self) i = Some b ->
      nth_error (Orbit.bpms self') i = Some b' ->
      Monitor.weight b <> 0 -> b' = b).

Definition bpm_weighted (name : String.string) (x y w : Qc) : Monitor.t :=
  {| Monitor.id := name; Monitor.x := x; Monitor.y := y;
     Monitor.x_ref := 0; Monitor.y_ref := 0;
     Monitor.Dx := 0; Monitor.Dy := 0;
     Monitor.Dx_des := 0; Monitor.Dy_des := 0;
     Monitor.weight := w |}.

(** Two monitors, the second of weight zero, one corrector; [reading] is
    what the second monitor shows. *)
Definition session3 (reading : Qc) : Orbit.t :=
  {| Orbit.bpms := [bpm_weighted "b1"%string 1 0 1;
                    bpm_weighted "b2"%string reading reading 0];
     Orbit.hcors := [cor_at "h1"%string 0 (q 1 1000)];
     Orbit.vcors := [];
     Orbit.response_matrix :=
       {| extract := fun _ _ => [[1]; [q 1 2]; [0]; [0]] |};
     Orbit.disp_response_matrix := None;
     Orbit.orbit_solver := svd_solver (q 1 1000) (q 1 1000) |}.

(** A stand-in for [linprog] on the one-by-one program of the examples: it
    returns the optimum (a, t) = (0, 1) of that program. *)
Definition linprog_1x1 (c : vector) (A : matrix) (b : vector) : vector :=
  [0; 1].

(** No element of the lattice has the id of [c]. *)
Definition absent (c : Element.t) (l : Measure.lattice) : Prop :=
  Forall (fun e => String.eqb (Element.id e) (Element.id c) = false) l.

(** [op] keeps the number and order of the elements, their ids and their
    steps, and leaves alone every element whose id is not the id of [c];
    without an element of that id it changes nothing. *)
Definition touches_only (c : Element.t)
           (op : Measure.lattice -> Measure.lattice) (l : Measure.lattice)
  : Prop :=
  length (op l) = length l /\
  map Element.id (op l) = map Element.id l /\
  map Element.dI (op l) = map Element.dI l /\
  (forall i e, nth_error l i = Some e ->
               String.eqb (Element.id e) (Element.id c) = false ->
               nth_error (op l) i = Some e) /\
  (absent c l -> op l = l).

(** A tracking routine that reads the first corrector angle in x. *)
Definition track_angle (l : Measure.lattice) (p : option Particle.t)
  : option (list (Qc * Qc)) :=
  Some [(match l with e :: _ => Element.angle e | [] => 0 end, 0)].

(** ** Discovery of monitors and correctors: [Orbit.create_bpms],
    [Orbit.create_correctors]

    The lattice sequence is a list of elements with a class, an id and a
    length; a monitor element may or may not carry a [weight] attribute.
    A found element is recorded with its position [s] and its index
    [lat_inx] in the sequence.  The program writes [s] and [lat_inx] onto
    the element object itself, so for an object that occurs several times
    in the sequence every entry would show its last occurrence; the loops
    below record each occurrence on its own, which is what the program
    gives when no found object occurs twice ([distinct_ids]). *)

Module Discovery.

(** [elem.__class__] *)
Inductive kind : Type := KMonitor | KHcor | KVcor | KOther.

Record elem := {
  cls : kind;
  id : String.string;
  l : Qc;
  weight : option Qc;   (* [None]: the attribute is missing *)
  x : Qc;
  y : Qc
}.

Record placed (A : Type) := {
  obj : A;
  s : Qc;
  lat_inx : nat
}.
Arguments obj {A} p.
Arguments s {A} p.
Arguments lat_inx {A} p.

(** [list is None or name in list] *)
Definition selected (names : option (list String.string))
           (name : String.string) : bool :=
  match names with
  | None => true
  | Some ids => existsb (String.eqb name) ids
  end.

(** The attributes [create_bpms] sets on a monitor element: the weight
    defaults to 1 when missing, references and dispersions are reset. *)
Definition monitor_of (e : elem) : Monitor.t :=
  {| Monitor.id := id e;
     Monitor.x := x e; Monitor.y := y e;
     Monitor.x_ref := 0; Monitor.y_ref := 0;
     Monitor.Dx := 0; Monitor.Dy := 0;
     Monitor.Dx_des := 0; Monitor.Dy_des := 0;
     Monitor.weight := match weight e with Some w => w | None => 1 end |}.

(** The loop of [create_bpms]; [L] is the length summed so far and [i]
    the index of the head of the sequence. *)
Fixpoint create_bpms_loop (bpm_list : option (list String.string))
         (L : Qc) (i : nat) (sequence : list elem)
  : list (placed Monitor.t) :=
  match sequence with
  | [] => []
  | e :: rest =>
      let tail := create_bpms_loop bpm_list (L + l e) (S i) rest in
      match cls e with
      | KMonitor =>
          if selected bpm_list (id e)
          then {| obj := monitor_of e; s := L + l e / Q2Qc 2; lat_inx := i |}
                 :: tail
          else tail
      | _ => tail
      end
  end.

Definition create_bpms (sequence : list elem)
           (bpm_list : option (list String.string))
  : list (placed Monitor.t) :=
  create_bpms_loop bpm_list 0 0 sequence.

(** The loop of [create_correctors]: the pair (hcors, vcors). *)
Fixpoint create_correctors_loop (cor_list : option (list String.string))
         (L : Qc) (i : nat) (sequence : list elem)
  : list (placed elem) * list (placed elem) :=
  match sequence with
  | [] => ([], [])
  | e :: rest =>
      let hv := create_correctors_loop cor_list (L + l e) (S i) rest in
      let here := {| obj := e; s := L + l e / Q2Qc 2; lat_inx := i |} in
      match cls e with
      | KVcor => if selected cor_list (id e)
                 then (fst hv, here :: snd hv) else hv
      | KHcor => if selected cor_list (id e)
                 then (here :: fst hv, snd hv) else hv
      | _ => hv
      end
  end.

Definition create_correctors (sequence : list elem)
           (cor_list : option (list String.string))
  : list (placed elem) * list (placed elem) :=
  create_correctors_loop cor_list 0 0 sequence.



End Discovery.

(** A drift, a monitor without weight, a horizontal corrector, a monitor
    of weight 1/2 and a vertical corrector. *)
Definition lattice_elem (k : Discovery.kind) (name : String.string)
           (len : Qc) (w : option Qc) : Discovery.elem :=
  {| Discovery.cls := k; Discovery.id := name; Discovery.l := len;
     Discovery.weight := w; Discovery.x := 0; Discovery.y := 0 |}.

Definition sequence1 : list Discovery.elem :=
  [lattice_elem Discovery.KOther "d1"%string (q 2 1) None;
   lattice_elem Discovery.KMonitor "b1"%string (q 1 1) None;
   lattice_elem Discovery.KHcor "h1"%string (q 1 1) None;
   lattice_elem Discovery.KMonitor "b2"%string (q 1 1) (Some (q 1 2));
   lattice_elem Discovery.KVcor "v1"%string (q 1 1) None].

(** * Properties *)

(** ** Comparisons and equality tests *)

Lemma Qcleb_le (x y : Qc) : Qcleb x y = true <-> x <= y.
Proof. unfold Qcleb, Qcle. apply Qle_bool_iff. Qed.

Lemma Qcleb_nle (x y : Qc) : Qcleb x y = false <-> y < x.
Proof.
  split; intro H.
  - apply Qcnot_le_lt. intro L. apply Qcleb_le in L. congruence.
  - destruct (Qcleb x y) eqn:E; [|reflexivity].
    apply Qcleb_le in E. exfalso. exact (Qcle_not_lt _ _ E H).
Qed.

Lemma Qcltb_lt (x y : Qc) : Qcltb x y = true <-> x < y.
Proof.
  unfold Qcltb. rewrite negb_true_iff. apply (Qcleb_nle y x).
Qed.

Lemma Qcltb_nlt (x y : Qc) : Qcltb x y = false <-> y <= x.
Proof.
  unfold Qcltb. rewrite negb_false_iff. apply (Qcleb_le y x).
Qed.

Lemma Qceqb_eq (x y : Qc) : Qceqb x y = true <-> x = y.
Proof.
  unfold Qceqb. split; intro H.
  - apply Qc_is_canon. apply Qeq_bool_iff. exact H.
  - subst. apply Qeq_bool_iff. reflexivity.
Qed.

Lemma Qceqb_neq (x y : Qc) : Qceqb x y = false -> x <> y.
Proof.
  intros H E. apply Qceqb_eq in E. congruence.
Qed.

Lemma veqb_eq (u v : vector) : veqb u v = true -> u = v.
Proof.
  revert v. induction u as [|a u IH]; destruct v as [|b v]; simpl;
    try discriminate; auto.
  intro H. apply andb_true_iff in H. destruct H as [H1 H2].
  apply Qceqb_eq in H1. f_equal; auto.
Qed.

Lemma meqb_eq (A B : matrix) : meqb A B = true -> A = B.
Proof.
  revert B. induction A as [|r A IH]; destruct B as [|q B]; simpl;
    try discriminate; auto.
  intro H. apply andb_true_iff in H. destruct H as [H1 H2].
  apply veqb_eq in H1. f_equal; auto.
Qed.

(** Closed goals over [Qc] are settled by evaluation of the tests. *)
Ltac qc_compute :=
  match goal with
  | |- @eq Qc _ _ => apply Qceqb_eq; vm_compute; reflexivity
  | |- @eq vector _ _ => apply veqb_eq; vm_compute; reflexivity
  | |- @eq (list Qc) _ _ => apply veqb_eq; vm_compute; reflexivity
  | |- @eq matrix _ _ => apply meqb_eq; vm_compute; reflexivity
  | |- @eq (list (list Qc)) _ _ => apply meqb_eq; vm_compute; reflexivity
  | |- not (@eq Qc _ _) => apply Qceqb_neq; vm_compute; reflexivity
  | |- Qcle _ _ => apply Qcleb_le; vm_compute; reflexivity
  | |- Qclt _ _ => apply Qcltb_lt; vm_compute; reflexivity
  end.




Lemma svd_shapeb_sound (M : matrix) (usv : matrix * vector * matrix) :
  svd_shapeb M usv = true -> svd_shape M usv.
Proof.
  destruct usv as [[U s] V]. unfold svd_shapeb, svd_shape. intro H.
  do 5 (apply andb_true_iff in H; destruct H as [H ?]).
  split; [apply Nat.eqb_eq; assumption|].
  split; [apply Nat.eqb_eq; assumption|].
  split; [apply Nat.eqb_eq; assumption|].
  split; [apply Nat.eqb_eq; assumption|].
  split; [apply Nat.eqb_eq; assumption|].
  apply Forall_forall. intros a Ha.
  match goal with
  | F : forallb (Qcleb 0) _ = true |- _ =>
      rewrite forallb_forall in F; apply Qcleb_le; apply F; exact Ha
  end.
Qed.

(** An exact decomposition has the shapes of [svd_shape]. *)
Lemma svd_spec_shape (M : matrix) (usv : matrix * vector * matrix) :
  svd_spec M usv -> svd_shape M usv.
Proof.
  destruct usv as [[U s] V]. unfold svd_spec, svd_shape.
  intros [[HU [HUr _]] [[HV [HVr _]] [Hlen [Hpos _]]]].
  split; [exact HU|]. split.
  { destruct U as [|u U]; [exact HU|]. inversion HUr; assumption. }
  split; [exact HV|]. split.
  { destruct V as [|v V]; [exact HV|]. inversion HVr; assumption. }
  split; assumption.
Qed.

Lemma opt_veqb_eq (a b : option vector) : opt_veqb a b = true -> a = b.
Proof.
  destruct a, b; simpl; try discriminate; auto.
  intro H. f_equal. apply veqb_eq. exact H.
Qed.

Lemma veqb_refl (u : vector) : veqb u u = true.
Proof.
  induction u as [|a u IH]; simpl; [reflexivity|].
  rewrite IH, andb_true_r. apply Qceqb_eq. reflexivity.
Qed.


Lemma opt_veqb_neq (a b : option vector) : opt_veqb a b = false -> a <> b.
Proof.
  intros H E. subst. destruct b; simpl in H; [|discriminate].
  rewrite veqb_refl in H. discriminate.
Qed.

(** ** MICADO: weights and the returned vector *)

(** C8: MICADO.apply gives the same result, and leaves the same state,
    whatever weights argument it receives, since the argument is replaced
    by None on entry. *)
Theorem C8_micado_ignores_weights
  (svd : matrix -> matrix * vector * matrix) (sqrt : Qc -> Qc)
  (self : MICADO.t) (orbit : vector) (resp_matrix : matrix)
  (W1 W2 : option matrix) :
  MICADO.apply svd sqrt self orbit resp_matrix W1
  = MICADO.apply svd sqrt self orbit resp_matrix W2 /\
  MICADO.run svd sqrt self orbit resp_matrix W1
  = MICADO.run svd sqrt self orbit resp_matrix W2.
Proof.
  split; reflexivity.
Qed.

Lemma insert_key_length (p : nat * nat) (l : list (nat * nat)) :
  length (insert_key p l) = S (length l).
Proof.
  induction l as [|h t IH]; simpl; [reflexivity|].
  destruct (Nat.leb (fst p) (fst h)); simpl; [reflexivity|].
  rewrite IH. reflexivity.
Qed.

Lemma argsort_length (l : list nat) : length (argsort l) = length l.
Proof.
  unfold argsort. rewrite length_map.
  assert (H : forall ps : list (nat * nat),
             length (fold_right insert_key [] ps) = length ps).
  { induction ps as [|p ps IH]; simpl; [reflexivity|].
    rewrite insert_key_length, IH. reflexivity. }
  rewrite H, length_combine, length_seq. apply Nat.min_id.
Qed.

Lemma take_indices_zeros (n : nat) (idx : list nat) :
  take_indices (vzeros n) idx = vzeros (length idx).
Proof.
  unfold take_indices, vzeros. induction idx as [|i idx IH]; simpl.
  - reflexivity.
  - rewrite IH. f_equal.
    destruct (Nat.lt_ge_cases i n) as [L|L].
    + apply nth_repeat_lt. exact L.
    + apply nth_overflow. rewrite repeat_length. exact L.
Qed.

Lemma list_set_length {A} (l : list A) :
  forall i v, length (list_set i v l) = length l.
Proof.
  induction l as [|h t IH]; intros [|i] v; simpl; auto.
Qed.

Section MicadoExit.
Variable svd : matrix -> matrix * vector * matrix.
Variable sqrt : Qc -> Qc.
Variable self : MICADO.t.
Variable orbit : vector.
Variable W : option matrix.

(** The loop is left either by the [break], with the convergence test
    true on the residuals recorded, or with [angle] untouched; the mask
    keeps its length. *)
Lemma outer_loop_exit (ncol : nat) (ns : list nat) :
  forall st,
    let st' := MICADO.outer_loop svd sqrt self orbit W ncol ns st in
    length (MICADO.mask st') = length (MICADO.mask st) /\
    (MICADO.converged self (MICADO.orb_residual st') = true \/
     MICADO.angle st' = MICADO.angle st).
Proof.
  induction ns as [|n ns IH]; intro st; cbv zeta; simpl.
  - split; [reflexivity|right; reflexivity].
  - destruct (MICADO.inner_loop svd sqrt self orbit W _ _ _ _ _)
      as [ap residual].
    destruct (MICADO.converged self _) eqn:E.
    + simpl. split; [|left; exact E].
      unfold MICADO.swap_mask. rewrite !list_set_length. reflexivity.
    + match goal with
      | |- context [MICADO.outer_loop _ _ _ _ _ _ _ ?s] =>
          destruct (IH s) as [L H]
      end.
      split.
      * rewrite L. simpl. unfold MICADO.swap_mask.
        rewrite !list_set_length. reflexivity.
      * destruct H as [H|H]; [left; exact H|right; rewrite H; reflexivity].
Qed.
End MicadoExit.

(** C3 (evaluation of the code): when the loop of MICADO.apply is left
    without the break (all columns selected, the convergence test of the
    last step false), [angle] was never assigned and the call returns the
    zero vector.  Every response matrix with a single column is such a
    case: for M = [[2]], e = [4] the column is selected and its
    sub-solution is [2], which is also what OrbitSVD returns, but MICADO
    returns [0]. *)
Theorem C3_micado_all_selected_returns_zero :
  (forall svd sqrt self orbit resp_matrix W,
      MICADO.converged
        self
        (MICADO.orb_residual
           (MICADO.run svd sqrt self orbit resp_matrix W)) = false ->
      MICADO.apply svd sqrt self orbit resp_matrix W
      = vzeros (ncols resp_matrix)) /\
  (forall svd sqrt self orbit a rest W,
      MICADO.apply svd sqrt self orbit ([a] :: rest) W = [0]) /\
  let st := MICADO.run svd_rect_diag sqrt_exact micado1 [q 4 1] [[q 2 1]]
                       None in
  MICADO.swaps st = [(0%nat, 0%nat)] /\
  MICADO.angles_part st = [q 2 1] /\
  MICADO.orb_residual st = [0] /\
  OrbitSVD.apply svd_rect_diag OrbitSVD.default [[q 2 1]] [q 4 1] None
  = [q 2 1] /\
  MICADO.apply svd_rect_diag sqrt_exact micado1 [q 4 1] [[q 2 1]] None = [0].
Proof.
  split; [|split].
  - intros svd sqrt self orbit M W Hc. unfold MICADO.apply.
    unfold MICADO.run in *.
    destruct (outer_loop_exit svd sqrt self orbit None (ncols M)
                (seq 0 (ncols M)) (MICADO.init M)) as [L [H|H]].
    + congruence.
    + rewrite H. simpl. rewrite take_indices_zeros, argsort_length, L.
      simpl. rewrite length_seq. reflexivity.
  - intros. reflexivity.
  - cbv zeta.
    split; [vm_compute; reflexivity|].
    repeat (split; [qc_compute|]). qc_compute.
Qed.

(** ** Shapes of the arrays built by numpy *)

Lemma nrows_mscale (a : Qc) (M : matrix) : nrows (mscale a M) = nrows M.
Proof. unfold nrows, mscale. apply length_map. Qed.

Lemma nrows_eye (n : nat) : nrows (eye n) = n.
Proof. unfold nrows, eye. rewrite length_map. apply length_seq. Qed.

Lemma rows_eye (n : nat) : Forall (fun r => length r = n) (eye n).
Proof.
  unfold eye. apply Forall_forall. intros r Hr.
  apply in_map_iff in Hr. destruct Hr as [i [<- _]].
  rewrite length_map. apply length_seq.
Qed.

Lemma rows_mscale (a : Qc) (n : nat) (M : matrix) :
  Forall (fun r => length r = n) M ->
  Forall (fun r => length r = n) (mscale a M).
Proof.
  intro H. unfold mscale. apply Forall_map.
  apply Forall_impl with (2 := H). intros r Hr.
  unfold vscale. rewrite length_map. exact Hr.
Qed.

Lemma nrows_zeros_like (M : matrix) : nrows (zeros_like M) = nrows M.
Proof. unfold nrows, zeros_like. apply length_map. Qed.

Lemma nrows_block_diag2 (A B : matrix) :
  nrows (block_diag2 A B) = (nrows A + nrows B)%nat.
Proof.
  unfold nrows, block_diag2. rewrite length_app, !length_map. reflexivity.
Qed.

(** ** Orbit.correction: the combined system *)

(** C4 (as the code has it): the regularisation block [b_mat] is square
    with as many rows as the dispersion block [DRM] has ROWS (two per
    monitor when the response matrix has two rows per monitor), not as
    many as it has columns; [b_orbit] has the same length, and the
    combined matrix stacks the three blocks. *)
Theorem C4_regularization_block_shape (self : Orbit.t) (alpha beta : Qc) :
  let k := nrows (Orbit.DRM self alpha) in
  nrows (Orbit.b_mat self alpha beta) = k /\
  Forall (fun r => length r = k) (Orbit.b_mat self alpha beta) /\
  length (Orbit.b_orbit self alpha) = k /\
  nrows (Orbit.rmatrix self alpha beta)
  = (nrows (Orbit.RM self alpha) + k + k)%nat /\
  (Orbit.disp_response_matrix self = None ->
   k = nrows (extract (Orbit.response_matrix self)
                      (Orbit.cor_list self) (Orbit.bpm_list self))).
Proof.
  cbv zeta. unfold Orbit.b_mat, Orbit.b_orbit, Orbit.rmatrix, block_diag.
  repeat split.
  - rewrite nrows_mscale. apply nrows_eye.
  - apply rows_mscale. apply rows_eye.
  - unfold vzeros. apply repeat_length.
  - unfold Orbit.b_mat.
    rewrite !nrows_block_diag2, nrows_mscale, nrows_eye. reflexivity.
  - intro H. unfold Orbit.DRM. rewrite H.
    rewrite nrows_zeros_like. unfold Orbit.RM. apply nrows_mscale.
Qed.

(** C4, counterexample to the claim as stated: with one monitor and one
    corrector the dispersion block is 2-by-1 and the regularisation block
    has 2 rows, neither the 1 column of the dispersion block nor the 1
    corrector. *)
Lemma C4_counterexample :
  ncols (Orbit.DRM session1 0) = 1%nat /\
  length (Orbit.cor_list session1) = 1%nat /\
  nrows (Orbit.b_mat session1 0 0) = 2%nat /\
  nrows (Orbit.b_mat session1 0 0) <> ncols (Orbit.DRM session1 0) /\
  nrows (Orbit.b_mat session1 0 0) <> length (Orbit.cor_list session1).
Proof.
  repeat split; vm_compute; congruence.
Qed.

Lemma update_angles_spec (alpha : Qc) (a : vector) (ncor : nat)
      (cors : list Element.t) :
  forall i,
    (ncor + i + length cors <= length a)%nat ->
    exists cors',
      Orbit.update_angles alpha a ncor i cors = Some cors' /\
      length cors' = length cors /\
      forall k cor,
        nth_error cors k = Some cor ->
        nth_error cors' k
        = Some (Element.set_angle cor
                  (Element.angle cor
                   - ((1 - alpha) * nth (i + k) a 0
                      + alpha * nth (ncor + (i + k)) a 0))).
Proof.
  induction cors as [|c cors IH]; intros i Hlen.
  - exists []. simpl. repeat split. intros [|k] cor; discriminate.
  - simpl in Hlen. simpl.
    rewrite (nth_error_nth' a 0) by lia.
    rewrite (nth_error_nth' a 0) by lia.
    destruct (IH (S i)) as [cors' [E [L N]]]; [lia|].
    rewrite E. eexists. split; [reflexivity|]. split; [simpl; lia|].
    intros [|k] cor Hk; simpl in *.
    + injection Hk as <-. rewrite Nat.add_0_r. reflexivity.
    + rewrite (N k cor Hk).
      replace (i + S k)%nat with (S (i + k)) by lia. reflexivity.
Qed.

Lemma length_disp (self : Orbit.t) (alpha : Qc) :
  length (Orbit.disp self alpha) = (2 * length (Orbit.bpms self))%nat.
Proof.
  unfold Orbit.disp, Orbit.orbit0, Orbit.get_orbit, Orbit.get_dispersion,
    vscale.
  destruct (Qceqb alpha 0); rewrite !length_map, length_app, !length_map; lia.
Qed.

Lemma appendable_rows (self : Orbit.t) (alpha : Qc) :
  nrows (Orbit.DRM self alpha) = (2 * length (Orbit.bpms self))%nat ->
  Orbit.appendable self alpha = true.
Proof.
  intro H. unfold Orbit.appendable. rewrite length_disp.
  unfold Orbit.b_orbit, vzeros. rewrite repeat_length, H.
  apply Nat.eqb_refl.
Qed.

(** C5 (as the code has it): in a session whose correctors have pairwise
    distinct ids (so that no corrector object is listed twice) and whose
    dispersion block has two rows per monitor (so that the error vector
    can be assembled), when the solver returns at least 2*ncor components
    (and at least 4 when p_init is passed), correction returns and has
    SUBTRACTED the combination (1 - alpha) * a[i] + alpha * a[ncor + i]
    from the angle of corrector i (so it has added Delta_angle = -[...],
    not subtracted it). *)
Theorem C5_angles_decreased (self : Orbit.t) (alpha beta : Qc)
        (p_init : option Particle.t) :
  NoDup (Orbit.cor_list self) ->
  nrows (Orbit.DRM self alpha) = (2 * length (Orbit.bpms self))%nat ->
  (2 * length (Orbit.hcors self ++ Orbit.vcors self)
   <= length (Orbit.solution self alpha beta))%nat ->
  (p_init <> None -> (4 <= length (Orbit.solution self alpha beta))%nat) ->
  angles_decreased_by_solution self alpha beta p_init.
Proof.
  intros _ Hrows Hlen Hp. unfold angles_decreased_by_solution. cbv zeta.
  unfold Orbit.correction, Orbit.cor_list.
  rewrite (appendable_rows self alpha Hrows). simpl negb. cbv iota.
  rewrite length_map.
  destruct (update_angles_spec alpha (Orbit.solution self alpha beta)
              (length (Orbit.hcors self ++ Orbit.vcors self))
              (Orbit.hcors self ++ Orbit.vcors self) 0)
    as [cors' [E [L N]]]; [lia|].
  rewrite E.
  assert (Hang :
            forall i cor,
              nth_error (Orbit.hcors self ++ Orbit.vcors self) i = Some cor ->
              exists cor',
                nth_error (firstn (length (Orbit.hcors self)) cors' ++
                           skipn (length (Orbit.hcors self)) cors') i
                = Some cor' /\
                Element.id cor' = Element.id cor /\
                Element.angle cor'
                = Element.angle cor
                  - ((1 - alpha) * nth i (Orbit.solution self alpha beta) 0
                     + alpha
                       * nth (length (Orbit.hcors self ++ Orbit.vcors self)
                              + i)
                             (Orbit.solution self alpha beta) 0)).
  { intros i cor Hi. rewrite firstn_skipn. rewrite (N i cor Hi).
    eexists. split; [reflexivity|]. split; reflexivity. }
  rewrite length_app in L.
  destruct p_init as [p|].
  - unfold Orbit.update_p_init.
    replace (Nat.ltb (length (Orbit.solution self alpha beta)) 4) with false
      by (symmetry; apply Nat.ltb_ge; apply Hp; discriminate).
    eexists. eexists. split; [reflexivity|]. simpl.
    split; [rewrite length_firstn; lia|].
    split; [rewrite length_skipn; lia|].
    split; [exact Hang|reflexivity].
  - eexists. eexists. split; [reflexivity|]. simpl.
    split; [rewrite length_firstn; lia|].
    split; [rewrite length_skipn; lia|].
    split; [exact Hang|reflexivity].
Qed.

Lemma C5_angles_decreased_witness :
  angles_decreased_by_solution session1 0 0 None.
Proof.
  apply (C5_angles_decreased session1 0 0 None).
  - repeat constructor. simpl. tauto.
  - reflexivity.
  - vm_compute. lia.
  - intro H. exfalso. apply H. reflexivity.
Defined.

(** C5, counterexample to the claim as stated: in [session1] the solver
    returns a = [1; 0; 0; 0] for the corrector at angle 0; the rule of the
    claim, angle - Delta with Delta = -[(1-alpha) a[0] + alpha a[1]], gives
    +1, the call leaves the angle at -1. *)
Lemma C5_counterexample :
  let a := Orbit.solution session1 0 0 in
  let delta := - ((1 - 0) * nth 0 a 0 + 0 * nth 1 a 0) in
  a = [1; 0; 0; 0] /\
  map Element.angle (Orbit.hcors session1 ++ Orbit.vcors session1) = [0] /\
  [0 - delta] = [1] /\
  angles_after (Orbit.correction session1 0 0 None) = Some [- (1)] /\
  angles_after (Orbit.correction session1 0 0 None) <> Some [0 - delta].
Proof.
  cbv zeta.
  split; [qc_compute|]. split; [qc_compute|]. split; [qc_compute|].
  split.
  - apply opt_veqb_eq. vm_compute. reflexivity.
  - apply opt_veqb_neq. vm_compute. reflexivity.
Qed.








(** ** Measurement routines: what happens to the lattice *)

Lemma set_angle_back (e : Element.t) (d : Qc) :
  Element.set_angle
    (Element.set_angle e (Element.angle e + d))
    (Element.angle (Element.set_angle e (Element.angle e + d)) - d) = e.
Proof.
  destruct e as [i a s x y]. unfold Element.set_angle. simpl.
  f_equal. ring.
Qed.

Lemma restore_change_corrector (c : Element.t) (l : Measure.lattice) :
  Measure.restore_corrector c (Measure.change_corrector c l) = l.
Proof.
  unfold Measure.restore_corrector, Measure.change_corrector.
  rewrite map_map. rewrite <- (map_id l) at 2. apply map_ext.
  intro e. destruct (String.eqb (Element.id e) (Element.id c)) eqn:E.
  - simpl. rewrite E. apply set_angle_back.
  - rewrite E. reflexivity.
Qed.



Lemma list_set_twice {A} (l : list A) :
  forall i v v', list_set i v' (list_set i v l) = list_set i v' l.
Proof.
  induction l as [|h t IH]; intros [|i] v v'; simpl; try reflexivity.
  f_equal. apply IH.
Qed.







Section Perturbations.
Import Measure.










Context {ar : Arith}.
Variable track : lattice -> option Particle.t -> option (list (Qc * Qc)).












End Perturbations.




(** ** OrbitSVD: thresholds *)

Lemma Qcmult_nonneg (a b : Qc) : 0 <= a -> 0 <= b -> 0 <= a * b.
Proof.
  intros Ha Hb. replace 0 with (0 * b) by ring.
  apply Qcmult_le_compat_r; assumption.
Qed.


Lemma Qcmax'_ge_l (x y : Qc) : x <= Qcmax' x y.
Proof.
  unfold Qcmax'. destruct (Qcltb x y) eqn:E.
  - apply Qclt_le_weak. apply Qcltb_lt. exact E.
  - apply Qcle_refl.
Qed.

Lemma fold_max_ge_init (t : vector) :
  forall x, x <= fold_left Qcmax' t x.
Proof.
  induction t as [|y t IH]; intro x; simpl.
  - apply Qcle_refl.
  - apply Qcle_trans with (Qcmax' x y); [apply Qcmax'_ge_l|apply IH].
Qed.

Lemma list_max_nonneg (s : vector) : Forall (Qcle 0) s -> 0 <= list_max s.
Proof.
  intro H. destruct s as [|x t]; simpl.
  - apply Qcle_refl.
  - inversion H; subst.
    apply Qcle_trans with x; [assumption|apply fold_max_ge_init].
Qed.


Lemma s_inv_loop_nth (self : OrbitSVD.t) (s_max : Qc) (half : nat)
      (s : vector) :
  forall i k,
    (k < length s)%nat ->
    nth k (OrbitSVD.s_inv_loop self s_max half i s) 0
    = if Qcleb (nth k s 0)
               (s_max * (if Nat.ltb (i + k) half
                         then OrbitSVD.epsilon_x self
                         else OrbitSVD.epsilon_y self))
      then 0 else 1 / nth k s 0.
Proof.
  induction s as [|a s IH]; intros i k Hk; simpl in Hk; [lia|].
  destruct k as [|k]; simpl.
  - rewrite Nat.add_0_r. reflexivity.
  - rewrite IH by lia. replace (S i + k)%nat with (i + S k)%nat by lia.
    reflexivity.
Qed.

Lemma Forall_nth_nonneg (s : vector) (i : nat) :
  Forall (Qcle 0) s -> 0 <= nth i s 0.
Proof.
  intro H. destruct (Nat.lt_ge_cases i (length s)) as [L|L].
  - rewrite Forall_forall in H. apply H. apply nth_In. exact L.
  - rewrite nth_overflow by exact L. apply Qcle_refl.
Qed.






(** ** MICADO: the caller's array after the call *)

Lemma argmin_from_spec (l : list Qc) :
  forall best bv i,
    let r := argmin_from best bv i l in
    r = best \/
    ((i <= r)%nat /\ (r - i < length l)%nat /\ nth (r - i) l 0 < bv).
Proof.
  induction l as [|x t IH]; intros best bv i; simpl.
  - left. reflexivity.
  - destruct (Qcltb x bv) eqn:E.
    + apply Qcltb_lt in E. right.
      destruct (IH i x (S i)) as [H|[H1 [H2 H3]]].
      * rewrite H. rewrite Nat.sub_diag. repeat split; [lia|lia|exact E].
      * split; [lia|]. split; [lia|].
        replace (argmin_from i x (S i) t - i)%nat
          with (S (argmin_from i x (S i) t - S i)) by lia.
        apply Qclt_trans with x; assumption.
    + destruct (IH best bv (S i)) as [H|[H1 [H2 H3]]].
      * left. exact H.
      * right. split; [lia|]. split; [lia|].
        replace (argmin_from best bv (S i) t - i)%nat
          with (S (argmin_from best bv (S i) t - S i)) by lia.
        exact H3.
Qed.

Lemma argmin_lt_length (l : list Qc) :
  l <> [] -> (argmin l < length l)%nat.
Proof.
  destruct l as [|x t]; [congruence|]. intros _. simpl.
  destruct (argmin_from_spec t O x 1) as [H|[H1 [H2 H3]]]; lia.
Qed.

Lemma argmin_strict (l : list Qc) :
  argmin l <> O -> nth (argmin l) l 0 < nth 0 l 0.
Proof.
  destruct l as [|x t]; simpl; [congruence|]. intro H.
  destruct (argmin_from_spec t O x 1) as [E|[H1 [H2 H3]]]; [congruence|].
  destruct (argmin_from O x 1 t) as [|r]; [congruence|].
  simpl in H3. rewrite Nat.sub_0_r in H3. exact H3.
Qed.

Lemma nth_list_set_eq {A} (l : list A) (d : A) :
  forall i v, (i < length l)%nat -> nth i (list_set i v l) d = v.
Proof.
  induction l as [|h t IH]; intros [|i] v H; simpl in *; try lia; auto.
  apply IH. lia.
Qed.

Lemma nth_list_set_neq {A} (l : list A) (d : A) :
  forall i j v, i <> j -> nth j (list_set i v l) d = nth j l d.
Proof.
  induction l as [|h t IH]; intros [|i] [|j] v H; simpl; auto; try lia.
Qed.

Lemma list_set_nth_same (l : vector) :
  forall i, list_set i (nth i l 0) l = l.
Proof.
  induction l as [|h t IH]; intros [|i]; simpl; auto.
  f_equal. apply IH.
Qed.

Lemma swap_columns_same (M : matrix) (a : nat) : MICADO.swap_columns M a a = M.
Proof.
  unfold MICADO.swap_columns. rewrite <- (map_id M) at 2.
  apply map_ext. intro r. cbv zeta.
  rewrite list_set_nth_same. apply list_set_nth_same.
Qed.

Lemma swap_columns_rows (M : matrix) (a b n : nat) :
  Forall (fun r => length r = n) M ->
  Forall (fun r => length r = n) (MICADO.swap_columns M a b).
Proof.
  intro H. unfold MICADO.swap_columns. apply Forall_map.
  apply Forall_impl with (2 := H). intros r Hr. cbv zeta.
  rewrite !list_set_length. exact Hr.
Qed.

Lemma col_swap_columns_other (M : matrix) (a b j : nat) :
  j <> a -> j <> b -> col j (MICADO.swap_columns M a b) = col j M.
Proof.
  intros Ha Hb. unfold col, MICADO.swap_columns. rewrite map_map.
  apply map_ext. intro r. cbv zeta.
  rewrite nth_list_set_neq by congruence.
  apply nth_list_set_neq. congruence.
Qed.

Lemma col_swap_columns_first (M : matrix) (a b n : nat) :
  Forall (fun r => length r = n) M -> (a < n)%nat ->
  col a (MICADO.swap_columns M a b) = col b M.
Proof.
  intros H Ha. unfold col, MICADO.swap_columns. rewrite map_map.
  apply map_ext_in. intros r Hr. cbv zeta.
  rewrite Forall_forall in H. specialize (H r Hr).
  destruct (Nat.eq_dec a b) as [->|N].
  - rewrite list_set_twice. apply nth_list_set_eq. lia.
  - rewrite nth_list_set_neq by congruence.
    apply nth_list_set_eq. lia.
Qed.

Section MicadoLoop.
Variable svd : matrix -> matrix * vector * matrix.
Variable sqrt : Qc -> Qc.
Variable self : MICADO.t.
Variable orbit : vector.
Variable W : option matrix.

Lemma candidate_depends_on_column (part M : matrix) (i j : nat) :
  col i M = col j M ->
  MICADO.candidate svd sqrt self orbit W part M i
  = MICADO.candidate svd sqrt self orbit W part M j.
Proof.
  intro H. unfold MICADO.candidate.
  assert (E : col_matrix i M = col_matrix j M).
  { unfold col_matrix.
    transitivity (map (fun x : Qc => [x]) (col i M)).
    - unfold col. rewrite map_map. reflexivity.
    - rewrite H. unfold col. rewrite map_map. reflexivity. }
  rewrite E. reflexivity.
Qed.

Lemma inner_loop_residual (part M : matrix) (idxs : list nat) :
  forall ap acc,
    snd (MICADO.inner_loop svd sqrt self orbit W part M idxs ap acc)
    = acc ++ map (fun i => snd (MICADO.candidate svd sqrt self orbit W part M i))
                 idxs.
Proof.
  induction idxs as [|i idxs IH]; intros ap acc; simpl.
  - rewrite app_nil_r. reflexivity.
  - destruct (MICADO.candidate svd sqrt self orbit W part M i) as [ap' res].
    rewrite IH. rewrite <- app_assoc. reflexivity.
Qed.

(** The column chosen at step [n] is in range, and when it is not column
    [n] itself the two columns differ. *)
Lemma chosen_column (part M : matrix) (ap : vector) (ncol n : nat) :
  (n < ncol)%nat ->
  let residual :=
    snd (MICADO.inner_loop svd sqrt self orbit W part M
                           (seq n (ncol - n)) ap []) in
  let index := (argmin residual + n)%nat in
  (index < ncol)%nat /\ (index <> n -> col index M <> col n M).
Proof.
  intro Hn. cbv zeta. rewrite inner_loop_residual. simpl app.
  set (res := map _ (seq n (ncol - n))).
  assert (Hlen : length res = (ncol - n)%nat)
    by (unfold res; rewrite length_map, length_seq; reflexivity).
  assert (Hne : res <> []).
  { intro E. rewrite E in Hlen. simpl in Hlen. lia. }
  pose proof (argmin_lt_length res Hne) as Hlt.
  split; [lia|].
  intros Hidx Hcol.
  assert (Ha : argmin res <> O) by lia.
  pose proof (argmin_strict res Ha) as Hs.
  assert (E : forall k, (k < ncol - n)%nat ->
                        nth k res 0
                        = snd (MICADO.candidate svd sqrt self orbit W part M
                                                (n + k))).
  { intros k Hk. unfold res.
    rewrite (nth_indep _ 0
               (snd (MICADO.candidate svd sqrt self orbit W part M 0)))
      by (rewrite length_map, length_seq; exact Hk).
    rewrite (map_nth (fun i => snd (MICADO.candidate svd sqrt self orbit W
                                                       part M i))).
    rewrite seq_nth by exact Hk. reflexivity. }
  rewrite (E (argmin res)) in Hs by lia.
  rewrite (E O) in Hs by lia.
  rewrite Nat.add_0_r in Hs.
  rewrite (candidate_depends_on_column part M (n + argmin res) n) in Hs.
  - exact (Qclt_not_le _ _ Hs (Qcle_refl _)).
  - rewrite Nat.add_comm. exact Hcol.
Qed.

(** From step [n] on, the columns before [n] stay as they are. *)
Lemma outer_loop_keeps_earlier_columns (ncol : nat) :
  forall k n st j,
    (j < n)%nat ->
    col j (MICADO.resp_matrix
             (MICADO.outer_loop svd sqrt self orbit W ncol (seq n k) st))
    = col j (MICADO.resp_matrix st).
Proof.
  induction k as [|k IH]; intros n st j Hj; simpl; [reflexivity|].
  destruct (MICADO.inner_loop svd sqrt self orbit W _ _ _ _ _)
    as [ap residual].
  destruct (MICADO.converged self _).
  - simpl. apply col_swap_columns_other; lia.
  - rewrite IH by lia. simpl. apply col_swap_columns_other; lia.
Qed.

Lemma outer_loop_changes_matrix (ncol : nat) :
  forall k n st,
    (n + k <= ncol)%nat ->
    Forall (fun r => length r = ncol) (MICADO.resp_matrix st) ->
    let st' := MICADO.outer_loop svd sqrt self orbit W ncol (seq n k) st in
    exists new,
      MICADO.swaps st' = MICADO.swaps st ++ new /\
      ((exists a b, In (a, b) new /\ a <> b) ->
       MICADO.resp_matrix st' <> MICADO.resp_matrix st).
Proof.
  induction k as [|k IH]; intros n st Hk Hrect; cbv zeta.
  - exists []. simpl. rewrite app_nil_r. split; [reflexivity|].
    intros [a [b [[] _]]].
  - simpl.
    pose proof (chosen_column
                  (hstack (MICADO.resp_matrix_part st) (MICADO.resp_vector st))
                  (MICADO.resp_matrix st) (MICADO.angles_part st) ncol n)
      as Hc.
    cbv zeta in Hc.
    destruct (MICADO.inner_loop svd sqrt self orbit W _ _ _ _ _)
      as [ap residual].
    simpl snd in Hc. destruct Hc as [Hlt Hdiff]; [lia|].
    set (index := (argmin residual + n)%nat) in *.
    assert (Hstep : index <> n ->
                    col n (MICADO.swap_columns (MICADO.resp_matrix st) n index)
                    <> col n (MICADO.resp_matrix st)).
    { intros Hi. rewrite (col_swap_columns_first _ n index ncol) by (auto; lia).
      apply Hdiff. exact Hi. }
    destruct (MICADO.converged self _).
    + simpl. exists [(n, index)]. split; [reflexivity|].
      intros [a [b [[E|[]] Hab]]]. injection E as <- <-.
      intro Heq. apply (Hstep (not_eq_sym Hab)). rewrite Heq. reflexivity.
    + match goal with
      | |- context [MICADO.outer_loop _ _ _ _ _ _ _ ?s] => set (st1 := s)
      end.
      destruct (IH (S n) st1) as [new [Hsw Hch]].
      * lia.
      * apply swap_columns_rows. exact Hrect.
      * exists ((n, index) :: new). split.
        { rewrite Hsw. simpl. rewrite <- app_assoc. reflexivity. }
        intros [a [b [Hin Hab]]].
        destruct (Nat.eq_dec index n) as [Heq|Hneq].
        { destruct Hin as [E|Hin].
          - injection E as <- <-. congruence.
          - assert (R : MICADO.resp_matrix st1 = MICADO.resp_matrix st).
            { simpl. rewrite Heq. apply swap_columns_same. }
            rewrite <- R. apply Hch. exists a, b. split; assumption. }
        { intro Heq.
          pose proof (outer_loop_keeps_earlier_columns ncol k (S n) st1 n
                        (Nat.lt_succ_diag_r n)) as K.
          rewrite Heq in K. apply (Hstep Hneq). rewrite K. reflexivity. }
Qed.
End MicadoLoop.

(** ** LInfinityNorm: the linear program that is solved *)

(** Linear goals over [Qc] are sent to [Q], where [lra] decides them. *)
Ltac qc_to_q :=
  unfold Qcle, Qclt, Qcminus, Qcdiv in *;
  unfold Qcplus, Qcmult, Qcopp, Q2Qc in *;
  cbn [this] in *;
  repeat (setoid_rewrite Qred_correct);
  repeat match goal with
         | H : context [Qred _] |- _ => setoid_rewrite Qred_correct in H
         end.

Ltac qc_lra :=
  match goal with
  | |- @eq Qc _ _ => apply Qc_is_canon; qc_to_q; lra
  | |- _ => qc_to_q; lra
  end.

Lemma lp_feasible_1x1 (y : vector) :
  LInfinityNorm.lp_feasible (LInfinityNorm.Ane [[1]])
                            (LInfinityNorm.bne [- (1)]) y ->
  exists a t, y = [a; t] /\ 0 <= a /\ 0 <= t /\ a + 1 <= t.
Proof.
  intros [Hlen [Hub Hpos]].
  destruct y as [|a [|t [|? ?]]]; try discriminate Hlen.
  exists a, t. split; [reflexivity|].
  inversion Hpos as [|? ? Ha Hpos']; subst.
  inversion Hpos' as [|? ? Ht _]; subst.
  split; [exact Ha|]. split; [exact Ht|].
  unfold LInfinityNorm.Ane, LInfinityNorm.bne, mat_vec in Hub.
  simpl in Hub. inversion Hub as [|? ? ? ? H1 _]; subst.
  unfold dot, vsum in H1. simpl in H1. clear - H1. qc_lra.
Qed.

(** C2 (evaluation of the code): [linprog] is called without [bounds],
    so it solves the program over non-negative unknowns only.  For
    M = [[1]] and e = [-1] the program has the optimum (a, t) = (0, 1), every
    optimum has a = 0, so the call returns [0] with largest residual 1,
    although a = [-1] has residual 0. *)
Theorem C2_linprog_default_bounds :
  let M : matrix := [[1]] in
  let e : vector := [- (1)] in
  let c := LInfinityNorm.cost (ncols M) in
  let A := LInfinityNorm.Ane M in
  let b := LInfinityNorm.bne e in
  LInfinityNorm.lp_optimal c A b [0; 1] /\
  (forall linprog : vector -> matrix -> vector -> vector,
      LInfinityNorm.lp_optimal c A b (linprog c A b) ->
      LInfinityNorm.apply linprog M e None = [0]) /\
  (forall t, LInfinityNorm.within t M e [0] -> 1 <= t) /\
  LInfinityNorm.within 0 M e [- (1)].
Proof.
  cbv zeta.
  assert (Hopt : LInfinityNorm.lp_optimal
                   (LInfinityNorm.cost (ncols [[1]]))
                   (LInfinityNorm.Ane [[1]]) (LInfinityNorm.bne [- (1)])
                   [0; 1]).
  { split.
    - split; [reflexivity|]. split.
      + repeat constructor; qc_compute.
      + repeat constructor; qc_compute.
    - intros y Hy. destruct (lp_feasible_1x1 y Hy) as [a [t [-> [Ha [Ht Hat]]]]].
      unfold LInfinityNorm.cost, dot, vsum. simpl. qc_lra. }
  split; [exact Hopt|]. split; [|split].
  - intros linprog [Hfeas Hmin]. unfold LInfinityNorm.apply.
    destruct (lp_feasible_1x1 _ Hfeas) as [a [t [E [Ha [Ht Hat]]]]].
    specialize (Hmin [0; 1] (proj1 Hopt)). rewrite E in Hmin |- *.
    unfold LInfinityNorm.cost, dot, vsum in Hmin. simpl in Hmin.
    simpl. f_equal. qc_lra.
  - intros t H. unfold LInfinityNorm.within, vsub, mat_vec in H.
    simpl in H. inversion H as [|? ? [H1 H2] _]; subst.
    unfold dot, vsum in H2. simpl in H2. clear - H2. qc_lra.
  - unfold LInfinityNorm.within, vsub, mat_vec. simpl.
    repeat constructor; qc_compute.
Qed.

(** ** Linear algebra on lists *)

Lemma dot_nil_r (u : vector) : dot u [] = 0.
Proof. unfold dot. rewrite combine_nil. reflexivity. Qed.

Lemma dot_cons (a b : Qc) (u v : vector) :
  dot (a :: u) (b :: v) = a * b + dot u v.
Proof. reflexivity. Qed.

Lemma dot_comm (u : vector) : forall v, dot u v = dot v u.
Proof.
  induction u as [|a u IH]; intros [|b v].
  - reflexivity.
  - reflexivity.
  - reflexivity.
  - rewrite !dot_cons, IH. ring.
Qed.


Lemma dot_map_zero {A} (l : list A) : forall x, dot (map (fun _ => 0) l) x = 0.
Proof.
  induction l as [|a l IH]; intros [|b x]; try reflexivity.
  simpl map. rewrite dot_cons, IH. ring.
Qed.

Lemma dot_map_add {A} (f g : A -> Qc) (l : list A) :
  forall x, dot (map (fun j => f j + g j) l) x
            = dot (map f l) x + dot (map g l) x.
Proof.
  induction l as [|a l IH]; intros [|b x]; simpl map.
  - unfold dot; simpl; ring.
  - unfold dot; simpl; ring.
  - rewrite !dot_nil_r. ring.
  - rewrite !dot_cons, IH. ring.
Qed.

Lemma dot_map_scale {A} (f : A -> Qc) (c : Qc) (l : list A) :
  forall x, dot (map (fun j => f j * c) l) x = c * dot (map f l) x.
Proof.
  induction l as [|a l IH]; intros [|b x]; simpl map.
  - unfold dot; simpl; ring.
  - unfold dot; simpl; ring.
  - rewrite !dot_nil_r. ring.
  - rewrite !dot_cons, IH. ring.
Qed.

Lemma map_nth_seq (v : vector) :
  map (fun j => nth j v 0) (seq 0 (length v)) = v.
Proof.
  apply (nth_ext _ _ 0 0).
  - rewrite length_map, length_seq. reflexivity.
  - intros i Hi. rewrite length_map, length_seq in Hi.
    rewrite (nth_indep _ 0 (nth 0 v 0))
      by (rewrite length_map, length_seq; exact Hi).
    rewrite (map_nth (fun j => nth j v 0)).
    rewrite seq_nth by exact Hi. reflexivity.
Qed.

(** The adjoint identity [(B^t r) . x = r . (B x)], with the transpose
    taken over [n] columns. *)
Lemma dot_adjoint (n : nat) (B : matrix) :
  Forall (fun b => length b = n) B ->
  forall r x,
    dot (map (fun j => dot (col j B) r) (seq 0 n)) x = dot r (mat_vec B x).
Proof.
  induction B as [|b B IH]; intros Hrect r x.
  - simpl. rewrite dot_nil_r.
    transitivity (dot (map (fun _ : nat => 0) (seq 0 n)) x).
    + f_equal.
    + apply dot_map_zero.
  - inversion Hrect as [|? ? Hb HB]; subst.
    destruct r as [|r0 r].
    + transitivity (dot (map (fun _ : nat => 0) (seq 0 (length b))) x).
      * f_equal; try (apply map_ext; intro j; apply dot_nil_r).
      * rewrite dot_map_zero. reflexivity.
    + simpl mat_vec. rewrite dot_cons.
      transitivity
        (dot (map (fun j => nth j b 0 * r0 + dot (col j B) r)
                  (seq 0 (length b))) x).
      * f_equal.
      * rewrite (dot_map_add (fun j => nth j b 0 * r0)
                             (fun j => dot (col j B) r)).
        rewrite (dot_map_scale (fun j => nth j b 0) r0).
        rewrite map_nth_seq. rewrite (IH HB). reflexivity.
Qed.

Lemma ncols_rect (n : nat) (B : matrix) :
  Forall (fun b => length b = n) B -> B <> [] -> ncols B = n.
Proof.
  intros H N. destruct B as [|b B]; [congruence|].
  inversion H; subst. reflexivity.
Qed.

(** [(A B) x = A (B x)] *)
Lemma mat_vec_mat_mul (A B : matrix) (x : vector) :
  rectangular B -> mat_vec (mat_mul A B) x = mat_vec A (mat_vec B x).
Proof.
  intro HB. unfold mat_mul, mat_vec at 1 2. rewrite map_map.
  apply map_ext. intro r.
  rewrite <- (dot_adjoint (ncols B) B HB r x).
  f_equal. apply map_ext. intro j. apply dot_comm.
Qed.

Lemma rectangular_transpose (A : matrix) : rectangular (transpose A).
Proof.
  unfold rectangular, transpose.
  destruct (ncols A) as [|n] eqn:E; [constructor|].
  apply Forall_forall. intros r Hr.
  apply in_map_iff in Hr. destruct Hr as [j [<- _]].
  simpl. unfold col. rewrite !length_map. reflexivity.
Qed.

Lemma rectangular_mat_mul (A B : matrix) : rectangular (mat_mul A B).
Proof.
  unfold rectangular, mat_mul. destruct A as [|a A]; [constructor|].
  apply Forall_forall. intros r Hr.
  apply in_map_iff in Hr. destruct Hr as [j [<- _]].
  simpl. rewrite !length_map. reflexivity.
Qed.


(** The product of a one-hot row with a vector picks one component. *)
Lemma dot_onehot (j : nat) (a : Qc) (m : nat) :
  forall start c,
    dot (map (fun i => if Nat.eqb i j then a else 0) (seq start m)) c
    = if Nat.leb start j && Nat.ltb j (start + m)
      then a * nth (j - start) c 0 else 0.
Proof.
  induction m as [|m IH]; intros start c.
  - simpl. replace (Nat.leb start j && Nat.ltb j (start + 0)) with false.
    + reflexivity.
    + symmetry. apply andb_false_iff.
      destruct (Nat.leb start j) eqn:E; [right|left; reflexivity].
      apply Nat.leb_le in E. apply Nat.ltb_ge. lia.
  - destruct c as [|c0 c].
    + rewrite dot_nil_r. destruct (_ && _); [|reflexivity].
      destruct (j - start)%nat; simpl; ring.
    + simpl seq. simpl map. rewrite dot_cons, IH.
      destruct (Nat.eqb start j) eqn:E.
      * apply Nat.eqb_eq in E. subst j.
        replace (Nat.leb (S start) start && Nat.ltb start (S start + m))
          with false
          by (symmetry; apply andb_false_iff; left; apply Nat.leb_gt; lia).
        replace (Nat.leb start start && Nat.ltb start (start + S m))
          with true
          by (symmetry; apply andb_true_iff; split;
              [apply Nat.leb_le|apply Nat.ltb_lt]; lia).
        rewrite Nat.sub_diag. simpl. ring.
      * apply Nat.eqb_neq in E.
        destruct (Nat.leb (S start) j && Nat.ltb j (S start + m)) eqn:F.
        -- apply andb_true_iff in F. destruct F as [F1 F2].
           apply Nat.leb_le in F1. apply Nat.ltb_lt in F2.
           replace (Nat.leb start j && Nat.ltb j (start + S m)) with true
             by (symmetry; apply andb_true_iff; split;
                 [apply Nat.leb_le|apply Nat.ltb_lt]; lia).
           replace (j - start)%nat with (S (j - S start)) by lia.
           simpl. ring.
        -- replace (Nat.leb start j && Nat.ltb j (start + S m)) with false.
           ++ ring.
           ++ symmetry. apply andb_false_iff.
              apply andb_false_iff in F. destruct F as [F|F].
              ** apply Nat.leb_gt in F. left. apply Nat.leb_gt. lia.
              ** apply Nat.ltb_ge in F. right. apply Nat.ltb_ge. lia.
Qed.





(** ** OrbitSVD: monotone truncation *)




Section Thresholds.
Variables self self' : OrbitSVD.t.
Hypothesis Hx : OrbitSVD.epsilon_x self <= OrbitSVD.epsilon_x self'.
Hypothesis Hy : OrbitSVD.epsilon_y self <= OrbitSVD.epsilon_y self'.
Variable s_max : Qc.
Hypothesis Hmax : 0 <= s_max.
Variable half : nat.



End Thresholds.


(** [apply] with the products re-associated. *)
Lemma apply_expanded (svd : matrix -> matrix * vector * matrix)
      (self : OrbitSVD.t) (M : matrix) (e : vector) (W : option matrix) :
  let W' := match W with None => eye (length e) | Some w => w end in
  let usv := svd (mat_mul W' M) in
  let U := fst (fst usv) in
  let s := snd (fst usv) in
  let V := snd usv in
  OrbitSVD.apply svd self M e W
  = mat_vec (transpose V)
      (mat_vec (transpose (OrbitSVD.Sinv_matrix (nrows U) (nrows V)
                                                (OrbitSVD.s_inv self s)))
               (mat_vec (transpose U) (mat_vec W' e))).
Proof.
  cbv zeta. unfold OrbitSVD.apply.
  destruct (svd _) as [[U s] V]. simpl.
  rewrite mat_vec_mat_mul by apply rectangular_mat_mul.
  rewrite mat_vec_mat_mul by apply rectangular_transpose.
  reflexivity.
Qed.





(** * Further properties of the code *)(** * Further properties of the code *)

(** ** MICADO: column swaps and the index mask *)

Lemma nth_swap {A} (d : A) (l : list A) (a b k : nat) :
  (a < length l)%nat -> (b < length l)%nat ->
  nth k (list_set b (nth a l d) (list_set a (nth b l d) l)) d
  = if Nat.eqb k b then nth a l d
    else if Nat.eqb k a then nth b l d else nth k l d.
Proof.
  intros Ha Hb. destruct (Nat.eqb k b) eqn:Eb.
  - apply Nat.eqb_eq in Eb. subst k.
    apply nth_list_set_eq. rewrite list_set_length. exact Hb.
  - apply Nat.eqb_neq in Eb. rewrite nth_list_set_neq by congruence.
    destruct (Nat.eqb k a) eqn:Ea.
    + apply Nat.eqb_eq in Ea. subst k. apply nth_list_set_eq. exact Ha.
    + apply Nat.eqb_neq in Ea. apply nth_list_set_neq. congruence.
Qed.

Lemma swap_row_involutive (r : vector) (a b : nat) :
  (a < length r)%nat -> (b < length r)%nat ->
  let r' := list_set b (nth a r 0) (list_set a (nth b r 0) r) in
  list_set b (nth a r' 0) (list_set a (nth b r' 0) r') = r.
Proof.
  intros Ha Hb r'.
  assert (L : length r' = length r)
    by (unfold r'; rewrite !list_set_length; reflexivity).
  apply (nth_ext _ _ 0 0).
  - rewrite !list_set_length. exact L.
  - intros k _. rewrite nth_swap by (rewrite L; assumption).
    unfold r'. rewrite !nth_swap by assumption.
    rewrite !Nat.eqb_refl.
    destruct (Nat.eqb k b) eqn:Eb; destruct (Nat.eqb k a) eqn:Ea;
      destruct (Nat.eqb a b) eqn:Eab; destruct (Nat.eqb b a) eqn:Eba;
      repeat match goal with
             | H : Nat.eqb _ _ = true |- _ => apply Nat.eqb_eq in H
             | H : Nat.eqb _ _ = false |- _ => apply Nat.eqb_neq in H
             end; subst; try reflexivity; try congruence.
Qed.

Lemma swap_row_symmetric (r : vector) (a b : nat) :
  (a < length r)%nat -> (b < length r)%nat ->
  list_set b (nth a r 0) (list_set a (nth b r 0) r)
  = list_set a (nth b r 0) (list_set b (nth a r 0) r).
Proof.
  intros Ha Hb. apply (nth_ext _ _ 0 0).
  - rewrite !list_set_length. reflexivity.
  - intros k _. rewrite !nth_swap by assumption.
    destruct (Nat.eqb k b) eqn:Eb; destruct (Nat.eqb k a) eqn:Ea;
      repeat match goal with
             | H : Nat.eqb _ _ = true |- _ => apply Nat.eqb_eq in H
             | H : Nat.eqb _ _ = false |- _ => apply Nat.eqb_neq in H
             end; subst; reflexivity.
Qed.

Lemma col_swap_columns (M : matrix) (n a b j : nat) :
  Forall (fun r => length r = n) M -> (a < n)%nat -> (b < n)%nat ->
  col j (MICADO.swap_columns M a b)
  = if Nat.eqb j a then col b M
    else if Nat.eqb j b then col a M else col j M.
Proof.
  intros Hrect Ha Hb. rewrite Forall_forall in Hrect.
  unfold col, MICADO.swap_columns. rewrite map_map.
  destruct (Nat.eqb j a) eqn:Ea; [|destruct (Nat.eqb j b) eqn:Eb];
    apply map_ext_in; intros r Hr; cbv zeta;
    rewrite nth_swap by (rewrite (Hrect r Hr); assumption).
  - apply Nat.eqb_eq in Ea. subst j.
    destruct (Nat.eqb a b) eqn:Eab; [|rewrite Nat.eqb_refl; reflexivity].
    apply Nat.eqb_eq in Eab. subst. reflexivity.
  - rewrite Eb. reflexivity.
  - rewrite Eb, Ea. reflexivity.
Qed.

(** X1: on an array with n columns and column indices in range,
    swap_columns exchanges the two columns and leaves the others, does not
    depend on the order of its two indices, and applied twice gives the
    array back. *)
Theorem swap_columns_exchanges (M : matrix) (n a b : nat) :
  Forall (fun r => length r = n) M -> (a < n)%nat -> (b < n)%nat ->
  (forall j, col j (MICADO.swap_columns M a b)
             = if Nat.eqb j a then col b M
               else if Nat.eqb j b then col a M else col j M) /\
  MICADO.swap_columns M a b = MICADO.swap_columns M b a /\
  MICADO.swap_columns (MICADO.swap_columns M a b) a b = M.
Proof.
  intros Hrect Ha Hb. repeat split.
  - intro j. apply (col_swap_columns M n); assumption.
  - rewrite Forall_forall in Hrect.
    unfold MICADO.swap_columns. apply map_ext_in. intros r Hr. cbv zeta.
    apply swap_row_symmetric; rewrite (Hrect r Hr); assumption.
  - rewrite Forall_forall in Hrect.
    unfold MICADO.swap_columns. rewrite map_map.
    rewrite <- (map_id M) at 2. apply map_ext_in. intros r Hr. cbv zeta.
    apply swap_row_involutive; rewrite (Hrect r Hr); assumption.
Qed.

Lemma swap_columns_exchanges_witness :
  (forall j, col j (MICADO.swap_columns response2 0 1)
             = if Nat.eqb j 0 then col 1 response2
               else if Nat.eqb j 1 then col 0 response2
                    else col j response2) /\
  MICADO.swap_columns response2 0 1 = MICADO.swap_columns response2 1 0 /\
  MICADO.swap_columns (MICADO.swap_columns response2 0 1) 0 1 = response2.
Proof.
  apply (swap_columns_exchanges response2 2 0 1).
  - repeat constructor.
  - lia.
  - lia.
Defined.

Lemma swap_permutation {A} (d : A) (l : list A) (a b : nat) :
  (a < length l)%nat -> (b < length l)%nat ->
  Permutation l (list_set b (nth a l d) (list_set a (nth b l d) l)).
Proof.
  intros Ha Hb. apply (Permutation_nth _ _ d). cbv zeta.
  split; [rewrite !list_set_length; reflexivity|].
  exists (fun x => if Nat.eqb x b then a else if Nat.eqb x a then b else x).
  split; [|split].
  - intros x Hx. destruct (Nat.eqb x b); [exact Ha|].
    destruct (Nat.eqb x a); assumption.
  - intros x y Hx Hy.
    destruct (Nat.eqb x b) eqn:Exb; destruct (Nat.eqb x a) eqn:Exa;
      destruct (Nat.eqb y b) eqn:Eyb; destruct (Nat.eqb y a) eqn:Eya;
      repeat match goal with
             | H : Nat.eqb _ _ = true |- _ => apply Nat.eqb_eq in H
             | H : Nat.eqb _ _ = false |- _ => apply Nat.eqb_neq in H
             end; subst; intro E; congruence.
  - intros x Hx. rewrite nth_swap by assumption.
    destruct (Nat.eqb x b); [reflexivity|].
    destruct (Nat.eqb x a); reflexivity.
Qed.

Lemma converged_needs_two (self : MICADO.t) (orb : list Qc) :
  MICADO.converged self orb = true -> (2 <= length orb)%nat.
Proof.
  unfold MICADO.converged. intro H. apply andb_true_iff in H.
  destruct H as [H _]. apply Nat.ltb_lt in H. lia.
Qed.

Section MicadoMask.
Variable svd : matrix -> matrix * vector * matrix.
Variable sqrt : Qc -> Qc.
Variable self : MICADO.t.
Variable orbit : vector.
Variable W : option matrix.
Variable M0 : matrix.
Variable ncol : nat.

(** The loop invariant: the mask is a permutation of the column indices
    and names, for every position, the column of the array passed in that
    now stands there. *)
Lemma outer_loop_mask (k : nat) :
  forall n st,
    (n + k <= ncol)%nat ->
    length (MICADO.mask st) = ncol ->
    Forall (fun r => length r = ncol) (MICADO.resp_matrix st) ->
    Permutation (seq 0 ncol) (MICADO.mask st) ->
    (forall p, (p < ncol)%nat ->
               col p (MICADO.resp_matrix st)
               = col (nth p (MICADO.mask st) O) M0) ->
    let st' := MICADO.outer_loop svd sqrt self orbit W ncol (seq n k) st in
    Permutation (seq 0 ncol) (MICADO.mask st') /\
    (forall p, (p < ncol)%nat ->
               col p (MICADO.resp_matrix st')
               = col (nth p (MICADO.mask st') O) M0).
Proof.
  induction k as [|k IH]; intros n st Hk Hlen Hrect Hperm Htrack; cbv zeta.
  - simpl. split; assumption.
  - simpl.
    pose proof (chosen_column svd sqrt self orbit W
                  (hstack (MICADO.resp_matrix_part st) (MICADO.resp_vector st))
                  (MICADO.resp_matrix st) (MICADO.angles_part st) ncol n)
      as Hc.
    cbv zeta in Hc.
    destruct (MICADO.inner_loop svd sqrt self orbit W _ _ _ _ _)
      as [ap residual].
    simpl snd in Hc. destruct Hc as [Hlt _]; [lia|].
    remember (argmin residual + n)%nat as index eqn:Hidx. clear Hidx.
    assert (Hn : (n < ncol)%nat) by lia.
    assert (Hperm' : Permutation (seq 0 ncol)
                                 (MICADO.swap_mask (MICADO.mask st) n index)).
    { apply Permutation_trans with (1 := Hperm).
      unfold MICADO.swap_mask.
      apply swap_permutation; rewrite Hlen; assumption. }
    assert (Htrack' :
              forall p, (p < ncol)%nat ->
                        col p (MICADO.swap_columns (MICADO.resp_matrix st)
                                                   n index)
                        = col (nth p (MICADO.swap_mask (MICADO.mask st)
                                                       n index) O) M0).
    { intros p Hp. rewrite (col_swap_columns _ ncol) by assumption.
      unfold MICADO.swap_mask.
      rewrite nth_swap by (rewrite Hlen; assumption).
      destruct (Nat.eqb p n) eqn:En; destruct (Nat.eqb p index) eqn:Ei;
        repeat match goal with
               | H : Nat.eqb _ _ = true |- _ => apply Nat.eqb_eq in H
               | H : Nat.eqb _ _ = false |- _ => apply Nat.eqb_neq in H
               end; subst; apply Htrack; assumption. }
    destruct (MICADO.converged self _).
    + simpl. split; assumption.
    + apply IH; simpl.
      * lia.
      * unfold MICADO.swap_mask. rewrite !list_set_length. exact Hlen.
      * apply swap_columns_rows. exact Hrect.
      * exact Hperm'.
      * exact Htrack'.
Qed.

(** One residual and one swap are recorded per step; the loop stops
    before its last step only when the convergence test holds. *)
Lemma outer_loop_steps (ns : list nat) :
  forall st,
    let st' := MICADO.outer_loop svd sqrt self orbit W ncol ns st in
    exists k,
      (k <= length ns)%nat /\
      length (MICADO.swaps st') = (length (MICADO.swaps st) + k)%nat /\
      length (MICADO.orb_residual st')
      = (length (MICADO.orb_residual st) + k)%nat /\
      ((k < length ns)%nat ->
       MICADO.converged self (MICADO.orb_residual st') = true).
Proof.
  induction ns as [|n ns IH]; intro st; cbv zeta; simpl.
  - exists O. repeat split; try lia.
  - destruct (MICADO.inner_loop svd sqrt self orbit W _ _ _ _ _)
      as [ap residual].
    destruct (MICADO.converged self _) eqn:E.
    + exists 1%nat. simpl. rewrite !length_app. simpl.
      repeat split; try lia. intros _. exact E.
    + match goal with
      | |- context [MICADO.outer_loop _ _ _ _ _ _ _ ?s] =>
          destruct (IH s) as [k [K1 [K2 [K3 K4]]]]
      end.
      exists (S k). simpl in K2, K3. rewrite !length_app in K2, K3.
      simpl in K2, K3.
      repeat split; try lia. intro H. apply K4. lia.
Qed.
End MicadoMask.

Lemma outer_loop_rows (svd : matrix -> matrix * vector * matrix)
      (sqrt : Qc -> Qc) (self : MICADO.t) (orbit : vector) (W : option matrix)
      (ncol : nat) (ns : list nat) :
  forall st,
    Forall (fun r => length r = ncol) (MICADO.resp_matrix st) ->
    let st' := MICADO.outer_loop svd sqrt self orbit W ncol ns st in
    Forall (fun r => length r = ncol) (MICADO.resp_matrix st') /\
    nrows (MICADO.resp_matrix st') = nrows (MICADO.resp_matrix st).
Proof.
  induction ns as [|n ns IH]; intros st Hrect; cbv zeta; simpl.
  - split; [exact Hrect|reflexivity].
  - destruct (MICADO.inner_loop svd sqrt self orbit W _ _ _ _ _)
      as [ap residual].
    assert (Hswap : nrows (MICADO.swap_columns (MICADO.resp_matrix st) n
                                               (argmin residual + n))
                    = nrows (MICADO.resp_matrix st))
      by (unfold nrows, MICADO.swap_columns; apply length_map).
    destruct (MICADO.converged self _).
    + simpl. split; [apply swap_columns_rows; exact Hrect|exact Hswap].
    + match goal with
      | |- context [MICADO.outer_loop _ _ _ _ _ _ _ ?s] =>
          destruct (IH s) as [F N]
      end.
      * simpl. apply swap_columns_rows. exact Hrect.
      * split; [exact F|]. rewrite N. simpl. exact Hswap.
Qed.

(** C10: MICADO.apply permutes the columns of the caller's array in place
    and does not undo it.  For a rectangular array the array after the call
    has the rows and row lengths of the array passed in, its column p is
    column mask[p] of the array passed in, the mask being a permutation of
    the column indices, and only the returned vector is put back in order
    (angle[argsort(mask)]); whenever some call of swap_columns had two
    distinct indices, the array after the call differs from the array
    passed in. *)
Theorem C10_micado_changes_resp_matrix
  (svd : matrix -> matrix * vector * matrix) (sqrt : Qc -> Qc)
  (self : MICADO.t) (orbit : vector) (resp_matrix : matrix)
  (W : option matrix) :
  rectangular resp_matrix ->
  (exists n index,
      In (n, index)
         (MICADO.swaps (MICADO.run svd sqrt self orbit resp_matrix W)) /\
      n <> index) ->
  let st := MICADO.run svd sqrt self orbit resp_matrix W in
  let after := MICADO.resp_matrix_after svd sqrt self orbit resp_matrix W in
  nrows after = nrows resp_matrix /\
  Forall (fun r => length r = ncols resp_matrix) after /\
  Permutation (seq 0 (ncols resp_matrix)) (MICADO.mask st) /\
  (forall p, (p < ncols resp_matrix)%nat ->
             col p after = col (nth p (MICADO.mask st) O) resp_matrix) /\
  after <> resp_matrix /\
  MICADO.apply svd sqrt self orbit resp_matrix W
  = take_indices (MICADO.angle st) (argsort (MICADO.mask st)).
Proof.
  intros Hrect Hswap. cbv zeta.
  unfold MICADO.resp_matrix_after, MICADO.apply, MICADO.run in *.
  destruct (outer_loop_rows svd sqrt self orbit None (ncols resp_matrix)
              (seq 0 (ncols resp_matrix)) (MICADO.init resp_matrix) Hrect)
    as [Hrows Hn].
  destruct (outer_loop_mask svd sqrt self orbit None resp_matrix
              (ncols resp_matrix) (ncols resp_matrix) 0
              (MICADO.init resp_matrix)) as [Hperm Htrack].
  { lia. }
  { simpl. apply length_seq. }
  { exact Hrect. }
  { simpl. apply Permutation_refl. }
  { intros p Hp. simpl. rewrite seq_nth by exact Hp. reflexivity. }
  split; [exact Hn|]. split; [exact Hrows|].
  split; [exact Hperm|]. split; [exact Htrack|].
  split; [|reflexivity].
  destruct (outer_loop_changes_matrix svd sqrt self orbit None
              (ncols resp_matrix) (ncols resp_matrix) 0
              (MICADO.init resp_matrix))
    as [new [Hsw Hch]].
  - lia.
  - exact Hrect.
  - simpl in Hsw. rewrite Hsw in Hswap. apply Hch. exact Hswap.
Qed.

Lemma C10_micado_changes_resp_matrix_witness :
  let st := MICADO.run svd_rect_diag sqrt_exact micado1 [1] response3 None in
  let after :=
    MICADO.resp_matrix_after svd_rect_diag sqrt_exact micado1 [1] response3
                             None in
  nrows after = nrows response3 /\
  Forall (fun r => length r = ncols response3) after /\
  Permutation (seq 0 (ncols response3)) (MICADO.mask st) /\
  (forall p, (p < ncols response3)%nat ->
             col p after = col (nth p (MICADO.mask st) O) response3) /\
  after <> response3 /\
  MICADO.apply svd_rect_diag sqrt_exact micado1 [1] response3 None
  = take_indices (MICADO.angle st) (argsort (MICADO.mask st)).
Proof.
  apply (C10_micado_changes_resp_matrix svd_rect_diag sqrt_exact micado1 [1]
           response3 None).
  - repeat constructor.
  - exists 0%nat, 1%nat. split; [vm_compute; left; reflexivity|lia].
Defined.

(** X2: while MICADO.apply swaps columns of the array in place, its mask
    stays a permutation of the column indices and records where every
    column came from: after the call, column p of the array is column
    mask[p] of the (rectangular) array that was passed in. *)
Theorem micado_mask_tracks_columns
  (svd : matrix -> matrix * vector * matrix) (sqrt : Qc -> Qc)
  (self : MICADO.t) (orbit : vector) (resp_matrix : matrix)
  (W : option matrix) :
  rectangular resp_matrix ->
  let st := MICADO.run svd sqrt self orbit resp_matrix W in
  Permutation (seq 0 (ncols resp_matrix)) (MICADO.mask st) /\
  (forall p, (p < ncols resp_matrix)%nat ->
             col p (MICADO.resp_matrix st)
             = col (nth p (MICADO.mask st) O) resp_matrix).
Proof.
  intros Hrect. cbv zeta. unfold MICADO.run.
  apply (outer_loop_mask svd sqrt self orbit None resp_matrix
           (ncols resp_matrix) (ncols resp_matrix) 0 (MICADO.init resp_matrix)).
  - lia.
  - simpl. apply length_seq.
  - exact Hrect.
  - simpl. apply Permutation_refl.
  - intros p Hp. simpl. rewrite seq_nth by exact Hp. reflexivity.
Qed.

Lemma micado_mask_tracks_columns_witness :
  let st := MICADO.run svd_rect_diag sqrt_exact micado1 [1] response3 None in
  Permutation (seq 0 (ncols response3)) (MICADO.mask st) /\
  (forall p, (p < ncols response3)%nat ->
             col p (MICADO.resp_matrix st)
             = col (nth p (MICADO.mask st) O) response3).
Proof.
  apply (micado_mask_tracks_columns svd_rect_diag sqrt_exact micado1 [1]
           response3 None).
  repeat constructor.
Defined.

(** X3: MICADO.apply always returns one entry per column of the
    response matrix, whichever way the loop is left. *)
Theorem micado_apply_length
  (svd : matrix -> matrix * vector * matrix) (sqrt : Qc -> Qc)
  (self : MICADO.t) (orbit : vector) (resp_matrix : matrix)
  (W : option matrix) :
  length (MICADO.apply svd sqrt self orbit resp_matrix W)
  = ncols resp_matrix.
Proof.
  unfold MICADO.apply, take_indices. rewrite length_map, argsort_length.
  unfold MICADO.run.
  destruct (outer_loop_exit svd sqrt self orbit None (ncols resp_matrix)
              (seq 0 (ncols resp_matrix)) (MICADO.init resp_matrix))
    as [L _].
  rewrite L. simpl. apply length_seq.
Qed.

(** X4: MICADO.apply records one residual per selected column, selects
    at most as many columns as there are, and never stops after a single
    step when there are two or more columns (the convergence test needs
    two recorded residuals). *)
Theorem micado_steps
  (svd : matrix -> matrix * vector * matrix) (sqrt : Qc -> Qc)
  (self : MICADO.t) (orbit : vector) (resp_matrix : matrix)
  (W : option matrix) :
  let st := MICADO.run svd sqrt self orbit resp_matrix W in
  length (MICADO.orb_residual st) = length (MICADO.swaps st) /\
  (length (MICADO.swaps st) <= ncols resp_matrix)%nat /\
  (Nat.min 2 (ncols resp_matrix) <= length (MICADO.swaps st))%nat.
Proof.
  cbv zeta. unfold MICADO.run.
  destruct (outer_loop_steps svd sqrt self orbit None (ncols resp_matrix)
              (seq 0 (ncols resp_matrix)) (MICADO.init resp_matrix))
    as [k [K1 [K2 [K3 K4]]]].
  rewrite length_seq in K1, K4. simpl in K2, K3.
  rewrite K2, K3. split; [reflexivity|]. split; [exact K1|].
  destruct (Nat.lt_ge_cases k (ncols resp_matrix)) as [L|L].
  - specialize (K4 L). apply converged_needs_two in K4.
    rewrite K3 in K4. lia.
  - lia.
Qed.

(** ** OrbitSVD: size of the result, degenerate and exact cases *)

Lemma ncols_mat_mul (A B : matrix) : A <> [] -> ncols (mat_mul A B) = ncols B.
Proof.
  destruct A as [|a A]; [congruence|]. intros _. simpl.
  rewrite length_map, length_seq. reflexivity.
Qed.

Lemma length_mat_vec (A : matrix) (x : vector) :
  length (mat_vec A x) = nrows A.
Proof. unfold mat_vec, nrows. apply length_map. Qed.

Lemma nrows_transpose (A : matrix) : nrows (transpose A) = ncols A.
Proof. unfold nrows, transpose. rewrite length_map. apply length_seq. Qed.

Lemma nrows_mat_mul (A B : matrix) : nrows (mat_mul A B) = nrows A.
Proof. unfold nrows, mat_mul. apply length_map. Qed.

(** X5: for a weighted matrix with at least one row and one column and a
    routine svd that returns factors of the documented shapes, the vector
    returned by OrbitSVD.apply has one entry per column of the response
    matrix. *)
Theorem orbit_svd_apply_length
  (svd : matrix -> matrix * vector * matrix) (self : OrbitSVD.t)
  (M : matrix) (e : vector) (W : option matrix) :
  (1 <= nrows (mat_mul (match W with None => eye (length e) | Some w => w end)
                       M))%nat ->
  (1 <= ncols (mat_mul (match W with None => eye (length e) | Some w => w end)
                       M))%nat ->
  svd_shape (mat_mul (match W with None => eye (length e) | Some w => w end) M)
            (svd (mat_mul (match W with None => eye (length e) | Some w => w end)
                          M)) ->
  length (OrbitSVD.apply svd self M e W) = ncols M.
Proof.
  intros Hm Hn Hsvd. rewrite apply_expanded. cbv zeta.
  rewrite length_mat_vec, nrows_transpose.
  destruct (svd _) as [[U s] V]. simpl.
  destruct Hsvd as [_ [_ [_ [HV _]]]].
  rewrite HV. apply ncols_mat_mul.
  intro E. rewrite nrows_mat_mul, E in Hm. simpl in Hm. lia.
Qed.

Lemma orbit_svd_apply_length_witness :
  length (OrbitSVD.apply svd_rect_diag solver1 response1 [1; 1] None)
  = ncols response1.
Proof.
  apply (orbit_svd_apply_length svd_rect_diag solver1 response1 [1; 1] None).
  - vm_compute. lia.
  - vm_compute. lia.
  - apply svd_shapeb_sound. vm_compute. reflexivity.
Defined.








Lemma mat_vec_rect_diag (m n : nat) (s v : vector) :
  mat_vec (rect_diag m n s) v
  = map (fun i => if Nat.ltb i n then nth i s 0 * nth i v 0 else 0)
        (seq 0 m).
Proof.
  unfold mat_vec, rect_diag. rewrite map_map. apply map_ext. intro i.
  transitivity
    (dot (map (fun j => if Nat.eqb j i then nth i s 0 else 0) (seq 0 n)) v).
  - f_equal. apply map_ext. intro j. rewrite (Nat.eqb_sym j i).
    destruct (Nat.eqb i j); simpl; [|reflexivity].
    destruct (Nat.ltb i (length s)) eqn:F; [reflexivity|].
    apply Nat.ltb_ge in F. rewrite nth_overflow by exact F. reflexivity.
  - rewrite dot_onehot. simpl Nat.leb. simpl andb. simpl Nat.add.
    rewrite Nat.sub_0_r. reflexivity.
Qed.

Lemma kept_loop_nth (self : OrbitSVD.t) (s_max : Qc) (half : nat)
      (s : vector) :
  forall i k,
    (k < length s)%nat ->
    nth k (OrbitSVD.kept_loop self s_max half i s) false
    = negb (Qcleb (nth k s 0)
                  (s_max * (if Nat.ltb (i + k) half
                            then OrbitSVD.epsilon_x self
                            else OrbitSVD.epsilon_y self))).
Proof.
  induction s as [|a s IH]; intros i k Hk; simpl in Hk; [lia|].
  destruct k as [|k]; simpl.
  - rewrite Nat.add_0_r. reflexivity.
  - rewrite IH by lia. replace (S i + k)%nat with (i + S k)%nat by lia.
    reflexivity.
Qed.

Lemma kept_loop_length (self : OrbitSVD.t) (s_max : Qc) (half : nat)
      (s : vector) :
  forall i, length (OrbitSVD.kept_loop self s_max half i s) = length s.
Proof.
  induction s as [|a s IH]; intro i; simpl; [reflexivity|].
  rewrite IH. reflexivity.
Qed.

(** A retained singular value is inverted, and is not zero when the
    thresholds are non-negative. *)
Lemma retained_value_inverted (self : OrbitSVD.t) (s : vector) (j : nat) :
  Forall (Qcle 0) s ->
  0 <= OrbitSVD.epsilon_x self -> 0 <= OrbitSVD.epsilon_y self ->
  Forall (fun b : bool => b = true) (OrbitSVD.kept self s) ->
  (j < length s)%nat ->
  nth j (OrbitSVD.s_inv self s) 0 * nth j s 0 = 1.
Proof.
  intros Hpos Hx Hy Hk Hj.
  assert (K : nth j (OrbitSVD.kept self s) false = true).
  { rewrite Forall_forall in Hk. apply Hk. apply nth_In.
    unfold OrbitSVD.kept. rewrite kept_loop_length. exact Hj. }
  unfold OrbitSVD.kept in K. rewrite kept_loop_nth in K by exact Hj.
  unfold OrbitSVD.s_inv. rewrite s_inv_loop_nth by exact Hj.
  simpl Nat.add in *. apply negb_true_iff in K. rewrite K.
  apply Qcleb_nle in K.
  assert (Hs : nth j s 0 <> 0).
  { intro Z. rewrite Z in K. apply (Qclt_not_le _ _ K).
    apply Qcmult_nonneg; [apply list_max_nonneg; exact Hpos|].
    destruct (Nat.ltb j _); assumption. }
  field. exact Hs.
Qed.

(** ** Weights *)

Lemma nth_col (M : matrix) (i j : nat) :
  nth i (col j M) 0 = nth j (nth i M []) 0.
Proof.
  unfold col. destruct (Nat.lt_ge_cases i (length M)) as [L|L].
  - rewrite (nth_indep _ 0 (nth j [] 0)) by (rewrite length_map; exact L).
    apply (map_nth (fun r => nth j r 0)).
  - rewrite nth_overflow by (rewrite length_map; exact L).
    rewrite (nth_overflow M) by exact L. destruct j; reflexivity.
Qed.

Lemma diag_row_dot (w x : vector) (i : nat) :
  (i < length w)%nat ->
  dot (map (fun j => if Nat.eqb i j then nth i w 0 else 0)
           (seq 0 (length w))) x
  = nth i w 0 * nth i x 0.
Proof.
  intro Hi.
  transitivity
    (dot (map (fun j => if Nat.eqb j i then nth i w 0 else 0)
              (seq 0 (length w))) x).
  - f_equal. apply map_ext. intro j. rewrite Nat.eqb_sym. reflexivity.
  - rewrite dot_onehot. simpl Nat.leb. simpl andb. simpl Nat.add.
    replace (Nat.ltb i (length w)) with true
      by (symmetry; apply Nat.ltb_lt; exact Hi).
    rewrite Nat.sub_0_r. reflexivity.
Qed.

(** A diagonal weight matrix scales row [i] by [w[i]]. *)
Lemma mat_mul_diag (w : vector) (M : matrix) :
  mat_mul (diag w) M
  = map (fun i => map (fun j => nth i w 0 * nth j (nth i M []) 0)
                      (seq 0 (ncols M)))
        (seq 0 (length w)).
Proof.
  unfold mat_mul, diag. rewrite map_map. apply map_ext_in.
  intros i Hi. apply in_seq in Hi. apply map_ext. intro j.
  rewrite diag_row_dot by lia. rewrite nth_col. reflexivity.
Qed.

Lemma mat_vec_diag (w e : vector) :
  mat_vec (diag w) e
  = map (fun i => nth i w 0 * nth i e 0) (seq 0 (length w)).
Proof.
  unfold mat_vec, diag. rewrite map_map. apply map_ext_in.
  intros i Hi. apply in_seq in Hi. apply diag_row_dot. lia.
Qed.

Lemma weighted_system_ignores_zero_weight (w : vector) (M M' : matrix)
      (e e' : vector) :
  ncols M = ncols M' ->
  (forall i, nth i w 0 <> 0 ->
             nth i M [] = nth i M' [] /\ nth i e 0 = nth i e' 0) ->
  mat_mul (diag w) M = mat_mul (diag w) M' /\
  mat_vec (diag w) e = mat_vec (diag w) e'.
Proof.
  intros Hc H. rewrite !mat_mul_diag, !mat_vec_diag, Hc. split.
  - apply map_ext. intro i. apply map_ext. intro j.
    destruct (Qc_eq_dec (nth i w 0) 0) as [Z|N].
    + rewrite Z. ring.
    + rewrite (proj1 (H i N)). reflexivity.
  - apply map_ext. intro i.
    destruct (Qc_eq_dec (nth i w 0) 0) as [Z|N].
    + rewrite Z. ring.
    + rewrite (proj2 (H i N)). reflexivity.
Qed.

(** X8: with a diagonal weight matrix, OrbitSVD.apply ignores every row
    whose weight is zero: two systems with the same number of columns
    that agree on all rows of non-zero weight (matrix row and error entry)
    give the same result. *)
Theorem orbit_svd_ignores_zero_weight_rows
  (svd : matrix -> matrix * vector * matrix) (self : OrbitSVD.t)
  (w : vector) (M M' : matrix) (e e' : vector) :
  ncols M = ncols M' ->
  (forall i, nth i w 0 <> 0 ->
             nth i M [] = nth i M' [] /\ nth i e 0 = nth i e' 0) ->
  OrbitSVD.apply svd self M e (Some (diag w))
  = OrbitSVD.apply svd self M' e' (Some (diag w)).
Proof.
  intros Hc H. unfold OrbitSVD.apply.
  destruct (weighted_system_ignores_zero_weight w M M' e e' Hc H) as [E1 E2].
  rewrite E1, E2. reflexivity.
Qed.

Lemma orbit_svd_ignores_zero_weight_rows_witness :
  OrbitSVD.apply svd_rect_diag solver1 [[1]; [q 5 1]] [1; q 3 1]
                 (Some (diag [1; 0]))
  = OrbitSVD.apply svd_rect_diag solver1 [[1]; [q 7 1]] [1; q 9 1]
                   (Some (diag [1; 0])).
Proof.
  apply (orbit_svd_ignores_zero_weight_rows svd_rect_diag solver1 [1; 0]).
  - reflexivity.
  - intros [|[|i]] H.
    + split; reflexivity.
    + exfalso. apply H. reflexivity.
    + exfalso. apply H. destruct i; reflexivity.
Defined.

(** ** Orbit.correction: the weight matrix and the sizes of the system *)

Lemma seq_offset (a n : nat) : seq a n = map (Nat.add a) (seq 0 n).
Proof.
  revert a. induction n as [|n IH]; intro a; simpl; [reflexivity|].
  rewrite Nat.add_0_r. f_equal.
  rewrite (IH (S a)), (IH 1%nat), map_map. apply map_ext.
  intro x. simpl. lia.
Qed.

Lemma ncols_diag (v : vector) : ncols (diag v) = length v.
Proof.
  unfold diag. destruct v as [|a v]; [reflexivity|].
  simpl. rewrite length_map, length_seq. reflexivity.
Qed.

Lemma nrows_diag (v : vector) : nrows (diag v) = length v.
Proof. unfold nrows, diag. rewrite length_map. apply length_seq. Qed.

Lemma rows_diag (v : vector) :
  Forall (fun r => length r = length v) (diag v).
Proof.
  unfold diag. apply Forall_forall. intros r Hr.
  apply in_map_iff in Hr. destruct Hr as [i [<- _]].
  rewrite length_map. apply length_seq.
Qed.

(** [combine_matrices] of two diagonal arrays is the diagonal array of
    the concatenated diagonals. *)
Lemma combine_matrices_diag (u v : vector) :
  Orbit.combine_matrices (diag u) (diag v) = diag (u ++ v).
Proof.
  unfold Orbit.combine_matrices. rewrite !ncols_diag.
  assert (Hrow : forall i,
             map (fun j => if Nat.eqb i j then nth i (u ++ v) 0 else 0)
                 (seq 0 (length u) ++ seq (length u) (length v))
             = map (fun j => if Nat.eqb i j then nth i (u ++ v) 0 else 0)
                   (seq 0 (length u)) ++
               map (fun j => if Nat.eqb i (length u + j)
                             then nth i (u ++ v) 0 else 0)
                   (seq 0 (length v))).
  { intro i. rewrite map_app.
    rewrite (seq_offset (length u) (length v)), map_map. reflexivity. }
  unfold diag at 3. rewrite length_app, seq_app, map_app. simpl Nat.add.
  f_equal.
  - unfold diag. rewrite map_map. apply map_ext_in. intros i Hi.
    apply in_seq in Hi. rewrite Hrow. f_equal.
    + apply map_ext. intro j. rewrite app_nth1 by lia. reflexivity.
    + unfold vzeros.
      replace (repeat 0 (length v))
        with (map (fun _ : nat => 0) (seq O (length v)))
        by (rewrite map_const, length_seq; reflexivity).
      apply map_ext_in. intros j Hj. apply in_seq in Hj.
      replace (Nat.eqb i (length u + j)) with false
        by (symmetry; apply Nat.eqb_neq; lia).
      reflexivity.
  - unfold diag. rewrite (seq_offset (length u) (length v)), !map_map.
    apply map_ext_in. intros i Hi. apply in_seq in Hi.
    rewrite map_app, map_map. f_equal.
    + unfold vzeros.
      replace (repeat 0 (length u))
        with (map (fun _ : nat => 0) (seq O (length u)))
        by (rewrite map_const, length_seq; reflexivity).
      apply map_ext_in. intros j Hj. apply in_seq in Hj.
      replace (Nat.eqb (length u + i) j) with false
        by (symmetry; apply Nat.eqb_neq; lia).
      reflexivity.
    + apply map_ext. intro j.
      rewrite app_nth2_plus.
      destruct (Nat.eqb i j) eqn:E.
      * apply Nat.eqb_eq in E. subst j. rewrite Nat.eqb_refl. reflexivity.
      * apply Nat.eqb_neq in E.
        replace (Nat.eqb (length u + i) (length u + j)) with false
          by (symmetry; apply Nat.eqb_neq; lia).
        reflexivity.
Qed.

Lemma bpm_weights_diag_is_diag (self : Orbit.t) :
  let w := Orbit.bpm_weights self in
  Orbit.bpm_weights_diag self = diag ((w ++ w ++ w ++ w) ++ w ++ w).
Proof. cbv zeta. unfold Orbit.bpm_weights_diag. apply combine_matrices_diag. Qed.

(** X9: the weight matrix built by correction is the diagonal matrix of
    six copies of the monitor weights (6m-by-6m for m monitors); when the
    orbit and dispersion response matrices have two rows per monitor, the
    combined matrix has 6m rows and the combined error vector 6m entries,
    so weights, matrix and vector fit together. *)
Theorem correction_system_sizes (self : Orbit.t) (alpha beta : Qc) :
  let m := length (Orbit.bpms self) in
  let w := Orbit.bpm_weights self in
  nrows (extract (Orbit.response_matrix self)
                 (Orbit.cor_list self) (Orbit.bpm_list self)) = (2 * m)%nat ->
  match Orbit.disp_response_matrix self with
  | Some d => nrows (extract d (Orbit.cor_list self) (Orbit.bpm_list self))
              = (2 * m)%nat
  | None => True
  end ->
  Orbit.bpm_weights_diag self = diag ((w ++ w ++ w ++ w) ++ w ++ w) /\
  nrows (Orbit.bpm_weights_diag self) = (6 * m)%nat /\
  Forall (fun r => length r = (6 * m)%nat) (Orbit.bpm_weights_diag self) /\
  nrows (Orbit.rmatrix self alpha beta) = (6 * m)%nat /\
  length (Orbit.orbit self alpha) = (6 * m)%nat.
Proof.
  cbv zeta. intros HR HD.
  assert (Lw : length ((Orbit.bpm_weights self ++ Orbit.bpm_weights self ++
                        Orbit.bpm_weights self ++ Orbit.bpm_weights self) ++
                       Orbit.bpm_weights self ++ Orbit.bpm_weights self)
               = (6 * length (Orbit.bpms self))%nat).
  { rewrite !length_app. unfold Orbit.bpm_weights. rewrite length_map. lia. }
  assert (HRM : nrows (Orbit.RM self alpha) = (2 * length (Orbit.bpms self))%nat).
  { unfold Orbit.RM. rewrite nrows_mscale. exact HR. }
  assert (HDRM : nrows (Orbit.DRM self alpha)
                 = (2 * length (Orbit.bpms self))%nat).
  { unfold Orbit.DRM. destruct (Orbit.disp_response_matrix self).
    - rewrite nrows_mscale. exact HD.
    - rewrite nrows_zeros_like. exact HRM. }
  pose proof (bpm_weights_diag_is_diag self) as Hdiag. cbv zeta in Hdiag.
  split; [exact Hdiag|]. rewrite Hdiag.
  split; [rewrite nrows_diag; exact Lw|].
  split; [rewrite <- Lw; apply rows_diag|].
  split.
  - unfold Orbit.rmatrix, block_diag, Orbit.b_mat.
    rewrite !nrows_block_diag2, nrows_mscale, nrows_eye, HRM, HDRM. lia.
  - unfold Orbit.orbit, Orbit.b_orbit, Orbit.orbit0, Orbit.disp.
    rewrite !length_app. unfold vzeros. rewrite repeat_length, HDRM.
    assert (Lo : length (Orbit.get_orbit self)
                 = (2 * length (Orbit.bpms self))%nat)
      by (unfold Orbit.get_orbit; rewrite length_app, !length_map; lia).
    assert (Ld : length (Orbit.get_dispersion self)
                 = (2 * length (Orbit.bpms self))%nat)
      by (unfold Orbit.get_dispersion; rewrite length_app, !length_map; lia).
    destruct (Qceqb alpha 0); unfold Orbit.orbit0, vscale;
      rewrite !length_map; lia.
Qed.

Lemma correction_system_sizes_witness :
  let w := Orbit.bpm_weights session2 in
  Orbit.bpm_weights_diag session2 = diag ((w ++ w ++ w ++ w) ++ w ++ w) /\
  nrows (Orbit.bpm_weights_diag session2) = (6 * 1)%nat /\
  Forall (fun r => length r = (6 * 1)%nat) (Orbit.bpm_weights_diag session2) /\
  nrows (Orbit.rmatrix session2 (q 1 2) (q 1 10)) = (6 * 1)%nat /\
  length (Orbit.orbit session2 (q 1 2)) = (6 * 1)%nat.
Proof.
  apply (correction_system_sizes session2 (q 1 2) (q 1 10)).
  - reflexivity.
  - exact I.
Defined.

Lemma nth_map_of_nth_error {A} (g : A -> Qc) (l : list A) (i : nat) (b : A) :
  nth_error l i = Some b -> nth i (map g l) 0 = g b.
Proof.
  intro H. apply nth_error_nth. apply map_nth_error. exact H.
Qed.

Lemma nth_app_agree (u U x x' X X' : vector) :
  length x = length u -> length x' = length u ->
  (forall i, nth i u 0 <> 0 -> nth i x 0 = nth i x' 0) ->
  (forall i, nth i U 0 <> 0 -> nth i X 0 = nth i X' 0) ->
  forall i, nth i (u ++ U) 0 <> 0 -> nth i (x ++ X) 0 = nth i (x' ++ X') 0.
Proof.
  intros Lx Lx' H1 H2 i Hi.
  destruct (Nat.lt_ge_cases i (length u)) as [L|L].
  - rewrite app_nth1 in Hi by exact L.
    rewrite !app_nth1 by lia. apply H1. exact Hi.
  - rewrite app_nth2 in Hi by exact L.
    rewrite !app_nth2 by lia. rewrite Lx, Lx'. apply H2. exact Hi.
Qed.

(** The error vector of [correction] is made of four blocks, each with
    one entry per monitor computed from that monitor alone, followed by
    the regularisation zeros. *)
Lemma orbit_blocks (alpha : Qc) :
  exists g1 g2 g3 g4 : Monitor.t -> Qc,
    forall self,
      Orbit.orbit self alpha
      = map g1 (Orbit.bpms self) ++ map g2 (Orbit.bpms self) ++
        map g3 (Orbit.bpms self) ++ map g4 (Orbit.bpms self) ++
        Orbit.b_orbit self alpha.
Proof.
  unfold Orbit.orbit, Orbit.disp, Orbit.orbit0, Orbit.get_orbit,
    Orbit.get_dispersion, vscale.
  destruct (Qceqb alpha 0);
    do 4 eexists; intro self;
    rewrite ?map_app, ?map_map, <- ?app_assoc; reflexivity.
Qed.

Section ZeroWeight.
Variables self self' : Orbit.t.
Hypothesis Hsame : same_weighted_monitors self self'.

Lemma block_agrees (g : Monitor.t -> Qc) :
  forall i, nth i (Orbit.bpm_weights self) 0 <> 0 ->
            nth i (map g (Orbit.bpms self)) 0
            = nth i (map g (Orbit.bpms self')) 0.
Proof.
  destruct Hsame as [_ [_ [_ [_ [_ [_ [Hw Hb]]]]]]].
  intros i Hi. unfold Orbit.bpm_weights in Hi.
  assert (Hlen : length (Orbit.bpms self') = length (Orbit.bpms self)).
  { rewrite <- (length_map Monitor.weight), Hw. apply length_map. }
  destruct (nth_error (Orbit.bpms self) i) as [b|] eqn:E.
  - destruct (nth_error (Orbit.bpms self') i) as [b'|] eqn:E'.
    + rewrite (nth_map_of_nth_error _ _ _ _ E) in Hi.
      rewrite (nth_map_of_nth_error _ _ _ _ E).
      rewrite (nth_map_of_nth_error _ _ _ _ E').
      rewrite (Hb i b b' E E' Hi). reflexivity.
    + apply nth_error_None in E'.
      assert (i < length (Orbit.bpms self))%nat
        by (apply nth_error_Some; congruence).
      lia.
  - apply nth_error_None in E. exfalso. apply Hi.
    apply nth_overflow. rewrite length_map. exact E.
Qed.

Lemma same_system (alpha beta : Qc) :
  Orbit.rmatrix self' alpha beta = Orbit.rmatrix self alpha beta /\
  Orbit.bpm_weights self' = Orbit.bpm_weights self /\
  Orbit.b_orbit self' alpha = Orbit.b_orbit self alpha.
Proof.
  destruct Hsame as [Hh [Hv [Hr [Hd [_ [Hid [Hw _]]]]]]].
  assert (E1 : Orbit.RM self' alpha = Orbit.RM self alpha).
  { unfold Orbit.RM, Orbit.cor_list, Orbit.bpm_list.
    rewrite Hh, Hv, Hr, Hid. reflexivity. }
  assert (E2 : Orbit.DRM self' alpha = Orbit.DRM self alpha).
  { unfold Orbit.DRM. rewrite Hd, E1.
    unfold Orbit.cor_list, Orbit.bpm_list. rewrite Hh, Hv, Hid.
    reflexivity. }
  split; [|split].
  - unfold Orbit.rmatrix, Orbit.b_mat. rewrite E1, E2. reflexivity.
  - exact Hw.
  - unfold Orbit.b_orbit. rewrite E2. reflexivity.
Qed.

Lemma weighted_orbit_agrees (alpha : Qc) :
  let w := Orbit.bpm_weights self in
  forall i, nth i ((w ++ w ++ w ++ w) ++ w ++ w) 0 <> 0 ->
            nth i (Orbit.orbit self alpha) 0
            = nth i (Orbit.orbit self' alpha) 0.
Proof.
  cbv zeta. destruct (orbit_blocks alpha) as [g1 [g2 [g3 [g4 Hg]]]].
  rewrite !Hg. rewrite <- !app_assoc.
  destruct (same_system alpha 0) as [_ [Hw Hz]]. rewrite Hz.
  assert (L : forall g : Monitor.t -> Qc,
             length (map g (Orbit.bpms self))
             = length (Orbit.bpm_weights self))
    by (intro g; unfold Orbit.bpm_weights; rewrite !length_map; reflexivity).
  assert (L' : forall g : Monitor.t -> Qc,
             length (map g (Orbit.bpms self'))
             = length (Orbit.bpm_weights self)).
  { intro g. rewrite <- Hw. unfold Orbit.bpm_weights.
    rewrite !length_map. reflexivity. }
  repeat (apply nth_app_agree;
          [apply L|apply L'|apply block_agrees|]).
  intros i _. reflexivity.
Qed.
Lemma same_appendable (alpha : Qc) :
  Orbit.appendable self' alpha = Orbit.appendable self alpha.
Proof.
  unfold Orbit.appendable. rewrite !length_disp.
  destruct (same_system alpha 0) as [_ [Hw Hz]]. rewrite Hz.
  assert (Hlen : length (Orbit.bpms self') = length (Orbit.bpms self)).
  { rewrite <- (length_map Monitor.weight).
    fold (Orbit.bpm_weights self'). rewrite Hw.
    unfold Orbit.bpm_weights. apply length_map. }
  rewrite Hlen. reflexivity.
Qed.
End ZeroWeight.

(** X10: a monitor of weight zero has no influence on correction with the
    OrbitSVD solver: two sessions that differ at most in the readings
    (x, y, references, dispersion) of monitors of weight zero get the same
    solver vector and the same corrector angles. *)
Theorem correction_ignores_unweighted_monitors
  (svd : matrix -> matrix * vector * matrix) (cfg : OrbitSVD.t)
  (self self' : Orbit.t) (alpha beta : Qc) :
  Orbit.orbit_solver self = OrbitSVD.apply svd cfg ->
  same_weighted_monitors self self' ->
  Orbit.solution self' alpha beta = Orbit.solution self alpha beta /\
  angles_after (Orbit.correction self' alpha beta None)
  = angles_after (Orbit.correction self alpha beta None).
Proof.
  intros Hsolver Hsame.
  assert (Hsol : Orbit.solution self' alpha beta
                 = Orbit.solution self alpha beta).
  { unfold Orbit.solution.
    destruct (same_system self self' Hsame alpha beta) as [HM [Hw _]].
    pose proof Hsame as Hcopy. destruct Hcopy as [_ [_ [_ [_ [Hs _]]]]].
    rewrite Hs, Hsolver, HM.
    pose proof (bpm_weights_diag_is_diag self) as D.
    pose proof (bpm_weights_diag_is_diag self') as D'.
    cbv zeta in D, D'. rewrite Hw in D'. rewrite D, D'.
    unfold OrbitSVD.apply.
    destruct (weighted_system_ignores_zero_weight
                ((Orbit.bpm_weights self ++ Orbit.bpm_weights self ++
                  Orbit.bpm_weights self ++ Orbit.bpm_weights self) ++
                 Orbit.bpm_weights self ++ Orbit.bpm_weights self)
                (Orbit.rmatrix self alpha beta)
                (Orbit.rmatrix self alpha beta)
                (Orbit.orbit self alpha) (Orbit.orbit self' alpha)
                eq_refl) as [_ E].
    - intros i Hi. split; [reflexivity|].
      apply (weighted_orbit_agrees self self'); assumption.
    - rewrite E. reflexivity. }
  split; [exact Hsol|].
  unfold Orbit.correction. rewrite Hsol.
  rewrite (same_appendable self self' Hsame alpha).
  destruct Hsame as [Hh [Hv _]].
  unfold Orbit.cor_list. rewrite Hh, Hv.
  destruct (negb _); [reflexivity|].
  destruct (Orbit.update_angles _ _ _ _ _); reflexivity.
Qed.

Lemma correction_ignores_unweighted_monitors_witness :
  Orbit.solution (session3 (q 9 1)) 0 0 = Orbit.solution (session3 (q 7 1)) 0 0 /\
  angles_after (Orbit.correction (session3 (q 9 1)) 0 0 None)
  = angles_after (Orbit.correction (session3 (q 7 1)) 0 0 None).
Proof.
  apply (correction_ignores_unweighted_monitors
           svd_rect_diag
           {| OrbitSVD.epsilon_x := q 1 1000; OrbitSVD.epsilon_y := q 1 1000 |}).
  - reflexivity.
  - unfold same_weighted_monitors. repeat (split; [reflexivity|]).
    intros [|[|i]] b b' E E' Hw; simpl in E, E'.
    + congruence.
    + injection E as <-. exfalso. apply Hw. reflexivity.
    + destruct i; discriminate.
Defined.

Lemma ncols_block_diag2 (A B : matrix) :
  ncols (block_diag2 A B) = (ncols A + ncols B)%nat.
Proof.
  unfold block_diag2. destruct A as [|a A]; simpl.
  - destruct B as [|b B]; reflexivity.
  - rewrite length_app. unfold vzeros. rewrite repeat_length. reflexivity.
Qed.

Lemma ncols_mscale (a : Qc) (M : matrix) : ncols (mscale a M) = ncols M.
Proof.
  destruct M as [|r M]; [reflexivity|]. simpl. unfold vscale.
  apply length_map.
Qed.

Lemma ncols_zeros_like (M : matrix) : ncols (zeros_like M) = ncols M.
Proof.
  destruct M as [|r M]; [reflexivity|]. simpl. unfold vzeros.
  apply repeat_length.
Qed.

Lemma ncols_eye (n : nat) : ncols (eye n) = n.
Proof.
  unfold eye. destruct n as [|n]; [reflexivity|].
  simpl. rewrite length_map, length_seq. reflexivity.
Qed.

Lemma svd_apply_length (svd : matrix -> matrix * vector * matrix)
      (self : OrbitSVD.t) (M : matrix) (e : vector) (Wm : matrix) :
  svd_shape (mat_mul Wm M) (svd (mat_mul Wm M)) -> Wm <> [] ->
  length (OrbitSVD.apply svd self M e (Some Wm)) = ncols M.
Proof.
  intros Hsvd Hne. rewrite apply_expanded. cbv zeta.
  rewrite length_mat_vec, nrows_transpose.
  destruct (svd _) as [[U s] V]. simpl.
  destruct Hsvd as [_ [_ [_ [HV _]]]].
  rewrite HV. apply ncols_mat_mul. exact Hne.
Qed.

(** X11: with the OrbitSVD solver, a routine svd that returns factors of
    the documented shapes, at least one monitor and response matrices with
    two rows per monitor and one column per corrector, the error vector can
    be assembled, the solver vector has 2*ncor entries plus one per row of
    the dispersion block, so correction (without p_init) finds every index
    it reads and returns. *)
Theorem correction_with_svd_returns
  (svd : matrix -> matrix * vector * matrix) (cfg : OrbitSVD.t)
  (self : Orbit.t) (alpha beta : Qc) :
  let ncor := length (Orbit.hcors self ++ Orbit.vcors self) in
  let m := length (Orbit.bpms self) in
  Orbit.orbit_solver self = OrbitSVD.apply svd cfg ->
  svd_shape (mat_mul (Orbit.bpm_weights_diag self)
                     (Orbit.rmatrix self alpha beta))
            (svd (mat_mul (Orbit.bpm_weights_diag self)
                          (Orbit.rmatrix self alpha beta))) ->
  Orbit.bpms self <> [] ->
  nrows (extract (Orbit.response_matrix self)
                 (Orbit.cor_list self) (Orbit.bpm_list self)) = (2 * m)%nat ->
  ncols (extract (Orbit.response_matrix self)
                 (Orbit.cor_list self) (Orbit.bpm_list self)) = ncor ->
  match Orbit.disp_response_matrix self with
  | Some d =>
      nrows (extract d (Orbit.cor_list self) (Orbit.bpm_list self))
      = (2 * m)%nat /\
      ncols (extract d (Orbit.cor_list self) (Orbit.bpm_list self)) = ncor
  | None => True
  end ->
  Orbit.appendable self alpha = true /\
  length (Orbit.solution self alpha beta) = (2 * ncor + 2 * m)%nat /\
  exists self', Orbit.correction self alpha beta None = Some (self', None).
Proof.
  cbv zeta. intros Hsolver Hsvd Hbpms HRr HR HD.
  assert (HRM : nrows (Orbit.RM self alpha)
                = (2 * length (Orbit.bpms self))%nat).
  { unfold Orbit.RM. rewrite nrows_mscale. exact HRr. }
  assert (HDRM : nrows (Orbit.DRM self alpha)
                 = (2 * length (Orbit.bpms self))%nat).
  { unfold Orbit.DRM. destruct (Orbit.disp_response_matrix self).
    - rewrite nrows_mscale. exact (proj1 HD).
    - rewrite nrows_zeros_like. exact HRM. }
  pose proof (appendable_rows self alpha HDRM) as Happ.
  assert (Hlen : length (Orbit.solution self alpha beta)
                 = (2 * length (Orbit.hcors self ++ Orbit.vcors self)
                    + 2 * length (Orbit.bpms self))%nat).
  { unfold Orbit.solution. rewrite Hsolver.
    rewrite svd_apply_length.
    - unfold Orbit.rmatrix, block_diag, Orbit.b_mat.
      rewrite !ncols_block_diag2, ncols_mscale, ncols_eye, HDRM.
      unfold Orbit.RM at 1. rewrite ncols_mscale, HR.
      unfold Orbit.DRM at 1.
      destruct (Orbit.disp_response_matrix self).
      + rewrite ncols_mscale, (proj2 HD). lia.
      + rewrite ncols_zeros_like. unfold Orbit.RM.
        rewrite ncols_mscale, HR. lia.
    - exact Hsvd.
    - pose proof (bpm_weights_diag_is_diag self) as D. cbv zeta in D.
      rewrite D. intro E. apply (f_equal nrows) in E.
      rewrite nrows_diag in E. simpl in E.
      rewrite !length_app in E. unfold Orbit.bpm_weights in E.
      rewrite length_map in E.
      destruct (Orbit.bpms self); [congruence|simpl in E; lia]. }
  split; [exact Happ|]. split; [exact Hlen|].
  unfold Orbit.correction, Orbit.cor_list. rewrite Happ. simpl negb. cbv iota.
  rewrite length_map.
  destruct (update_angles_spec alpha (Orbit.solution self alpha beta)
              (length (Orbit.hcors self ++ Orbit.vcors self))
              (Orbit.hcors self ++ Orbit.vcors self) 0)
    as [cors' [E _]]; [lia|].
  rewrite E. eexists. reflexivity.
Qed.

Lemma correction_with_svd_returns_witness :
  Orbit.appendable session2 0 = true /\
  length (Orbit.solution session2 0 0)
  = (2 * length (Orbit.hcors session2 ++ Orbit.vcors session2)
     + 2 * length (Orbit.bpms session2))%nat /\
  exists self', Orbit.correction session2 0 0 None = Some (self', None).
Proof.
  apply (correction_with_svd_returns
           svd_rect_diag
           {| OrbitSVD.epsilon_x := q 1 2; OrbitSVD.epsilon_y := q 1 1000 |}
           session2 0 0).
  - reflexivity.
  - apply svd_shapeb_sound. vm_compute. reflexivity.
  - discriminate.
  - reflexivity.
  - reflexivity.
  - exact I.
Defined.

(** ** Measurement routines: perturbing and restoring *)

Lemma map_fixed {A} (f : A -> A) (l : list A) :
  (forall x, In x l -> f x = x) -> map f l = l.
Proof.
  intro H. induction l as [|a l IH]; [reflexivity|].
  simpl. rewrite H by (left; reflexivity). f_equal.
  apply IH. intros x Hx. apply H. right. exact Hx.
Qed.

Lemma change_corrector_absent (c : Element.t) (l : Measure.lattice) :
  absent c l -> Measure.change_corrector c l = l.
Proof.
  unfold absent, Measure.change_corrector. intro H.
  apply map_fixed. intros e He.
  rewrite Forall_forall in H. rewrite (H e He). reflexivity.
Qed.

Lemma touches_only_map (c : Element.t) (g : Element.t -> Element.t)
      (l : Measure.lattice) :
  (forall e, Element.id (g e) = Element.id e) ->
  (forall e, Element.dI (g e) = Element.dI e) ->
  touches_only
    c
    (map (fun elem => if String.eqb (Element.id elem) (Element.id c)
                      then g elem else elem))
    l.
Proof.
  intros Hid HdI. unfold touches_only.
  split; [apply length_map|].
  split.
  { rewrite map_map. apply map_ext. intro e.
    destruct (String.eqb _ _); [apply Hid|reflexivity]. }
  split.
  { rewrite map_map. apply map_ext. intro e.
    destruct (String.eqb _ _); [apply HdI|reflexivity]. }
  split.
  - intros i e Hi He. rewrite nth_error_map, Hi. simpl. rewrite He.
    reflexivity.
  - intro Ha. apply map_fixed. intros e He.
    unfold absent in Ha. rewrite Forall_forall in Ha.
    rewrite (Ha e He). reflexivity.
Qed.

(** X13: in any arithmetic, change_corrector, restore_corrector and
    change_quad_position keep the number and order of the lattice
    elements, every id and every step dI, and leave alone each element
    whose id is not the id of the corrector or quad passed; a corrector
    or quad whose id is not in the lattice changes nothing, and no error
    is raised.  The corrector operations do not touch dx and dy, and
    change_quad_position does not touch the angles. *)
Theorem perturbations_touch_matching_ids
        (ar : Arith) (c : Element.t) (l : Measure.lattice) (dx dy : Qc) :
  touches_only c (Measure.change_corrector c) l /\
  touches_only c (Measure.restore_corrector c) l /\
  touches_only c (fun l0 => Measure.change_quad_position c l0 dx dy) l /\
  map Element.dx (Measure.change_corrector c l) = map Element.dx l /\
  map Element.dy (Measure.change_corrector c l) = map Element.dy l /\
  map Element.dx (Measure.restore_corrector c l) = map Element.dx l /\
  map Element.dy (Measure.restore_corrector c l) = map Element.dy l /\
  map Element.angle (Measure.change_quad_position c l dx dy)
  = map Element.angle l.
Proof.
  split; [apply touches_only_map; reflexivity|].
  split; [apply touches_only_map; reflexivity|].
  split; [apply touches_only_map; reflexivity|].
  unfold Measure.change_corrector, Measure.restore_corrector,
    Measure.change_quad_position.
  repeat split; rewrite map_map; apply map_ext; intro e;
    destruct (String.eqb _ _); reflexivity.
Qed.

Lemma column_same (rd : list (Qc * Qc)) (step : Qc) :
  Measure.column rd rd step = vzeros (2 * length rd).
Proof.
  unfold Measure.column, vzeros. cbn [fdiv fsub exact_arith].
  replace (2 * length rd)%nat with (length rd + length rd)%nat by lia.
  rewrite repeat_app.
  assert (H : forall f : Qc * Qc -> Qc,
             map (fun p : (Qc * Qc) * (Qc * Qc) =>
                    (f (fst p) - f (snd p)) / step) (combine rd rd)
             = repeat 0 (length rd)).
  { intro f. induction rd as [|a rd IH]; [reflexivity|].
    simpl. rewrite IH. f_equal. unfold Qcdiv. ring. }
  rewrite (H fst), (H snd). reflexivity.
Qed.

Section AbsentCorrector.
Variable track : Measure.lattice -> option Particle.t
                 -> option (list (Qc * Qc)).

Lemma measure_corrector_absent (rd : list (Qc * Qc)) (c : Element.t)
      (w : Measure.world) :
  absent c (Measure.lat w) ->
  track (Measure.lat w) None = Some rd ->
  Measure.measure_corrector track rd c w
  = (Measure.Ok (vzeros (2 * length rd)),
     {| Measure.lat := Measure.lat w; Measure.readings := rd |}).
Proof.
  intros Ha Ht.
  unfold Measure.measure_corrector, Measure.bind, Measure.modify_lattice,
    Measure.read_virtual_orbit, Measure.get_readings, Measure.ret.
  simpl. rewrite (change_corrector_absent c _ Ha), Ht. simpl.
  rewrite column_same.
  pose proof (restore_change_corrector c (Measure.lat w)) as R.
  rewrite (change_corrector_absent c _ Ha) in R. rewrite R. reflexivity.
Qed.

Lemma for_each_absent (rd : list (Qc * Qc)) (l : Measure.lattice)
      (cors : list Element.t) :
  Forall (fun c => absent c l) cors ->
  track l None = Some rd ->
  Measure.for_each cors (Measure.measure_corrector track rd)
                   {| Measure.lat := l; Measure.readings := rd |}
  = (Measure.Ok (map (fun _ => vzeros (2 * length rd)) cors),
     {| Measure.lat := l; Measure.readings := rd |}).
Proof.
  intros Ha Ht. induction cors as [|c cors IH]; [reflexivity|].
  inversion Ha as [|? ? Hc Hrest]; subst.
  simpl Measure.for_each. unfold Measure.bind at 1.
  rewrite measure_corrector_absent by assumption. simpl Measure.lat.
  unfold Measure.bind at 1. rewrite (IH Hrest). reflexivity.
Qed.
End AbsentCorrector.

Lemma from_columns_zeros (r k n : nat) :
  Measure.from_columns r (repeat (vzeros k) n) = zeros r n.
Proof.
  unfold Measure.from_columns, zeros.
  transitivity (map (fun _ : nat => vzeros n) (seq O r));
    [|rewrite map_const, length_seq; reflexivity].
  apply map_ext. intro i.
  transitivity (map (fun _ : vector => 0) (repeat (vzeros k) n));
    [|rewrite map_const, repeat_length; reflexivity].
  apply map_ext_in. intros c Hc. apply repeat_spec in Hc. subst c.
  unfold vzeros.
  destruct (Nat.lt_ge_cases i k) as [L|L].
  - apply nth_repeat_lt. exact L.
  - apply nth_overflow. rewrite repeat_length. exact L.
Qed.

(** X14: measure_response_matrix does not notice correctors that are
    missing from the lattice: when no lattice element has the id of any
    listed corrector, every step dI is non-zero (the columns are divided
    by it) and the tracking succeeds, the routine returns an all-zero
    response matrix with one column per corrector and leaves the lattice
    as it was. *)
Theorem measure_response_matrix_absent_correctors
  (track : Measure.lattice -> option Particle.t -> option (list (Qc * Qc)))
  (m : nat) (hcors vcors : list Element.t) (w : Measure.world)
  (rd : list (Qc * Qc)) :
  Forall (fun c => absent c (Measure.lat w)) (hcors ++ vcors) ->
  Forall (fun c => Element.dI c <> 0) (hcors ++ vcors) ->
  track (Measure.lat w) None = Some rd ->
  Measure.measure_response_matrix track m hcors vcors w
  = (Measure.Ok (zeros (2 * m) (length hcors + length vcors)),
     {| Measure.lat := Measure.lat w; Measure.readings := rd |}).
Proof.
  intros Ha _ Ht. apply Forall_app in Ha. destruct Ha as [Hh Hv].
  unfold Measure.measure_response_matrix.
  unfold Measure.bind at 1. unfold Measure.read_virtual_orbit at 1.
  rewrite Ht.
  unfold Measure.bind at 1. unfold Measure.get_readings at 1.
  simpl Measure.readings.
  unfold Measure.bind at 1.
  rewrite (for_each_absent track rd (Measure.lat w) hcors Hh Ht).
  unfold Measure.bind at 1.
  rewrite (for_each_absent track rd (Measure.lat w) vcors Hv Ht).
  unfold Measure.ret. f_equal. f_equal.
  rewrite !map_const, <- repeat_app. apply from_columns_zeros.
Qed.

Lemma measure_response_matrix_absent_correctors_witness :
  Measure.measure_response_matrix
    track_angle 1 [cor_at "h2"%string 0 (q 1 1000)] [] world9
  = (Measure.Ok (zeros (2 * 1) (1 + 0)),
     {| Measure.lat := Measure.lat world9;
        Measure.readings := [(0, 0)] |}).
Proof.
  apply (measure_response_matrix_absent_correctors
           track_angle 1 [cor_at "h2"%string 0 (q 1 1000)] [] world9
           [(0, 0)]).
  - repeat constructor.
  - repeat constructor. qc_compute.
  - reflexivity.
Defined.

(** ** Discovery of monitors and correctors *)

Section DiscoveryLoop.
Import Discovery.
Variable names : option (list String.string).



End DiscoveryLoop.





Section CorrectorLoop.
Import Discovery.
Variable names : option (list String.string).





End CorrectorLoop.



(** Evaluation on the example sequence (drift, monitor without weight,
    horizontal corrector, monitor of weight 1/2, vertical corrector)
    create_bpms and create_correctors return the monitors at indices 1
    and 3 with s = 5/2 and 9/2 and weights 1 and 1/2, the horizontal
    corrector at index 2 and the vertical one at index 4; selecting by a
    list of ids keeps only the listed elements, and a sequence without
    monitors gives the empty list. *)
Lemma discovery_examples :
  map (fun b => (Discovery.lat_inx b,
                 Qceqb (Discovery.s b) (q 5 2) || Qceqb (Discovery.s b) (q 9 2),
                 Qceqb (Monitor.weight (Discovery.obj b)) 1))
      (Discovery.create_bpms sequence1 None)
  = [(1%nat, true, true); (3%nat, true, false)] /\
  map Discovery.lat_inx (fst (Discovery.create_correctors sequence1 None))
  = [2%nat] /\
  map Discovery.lat_inx (snd (Discovery.create_correctors sequence1 None))
  = [4%nat] /\
  map Discovery.lat_inx
      (Discovery.create_bpms sequence1 (Some ["b2"%string])) = [3%nat] /\
  Discovery.create_bpms
    [lattice_elem Discovery.KOther "d1"%string 1 None] None = [].
Proof.
  repeat split; vm_compute; reflexivity.
Qed.


(** ** Measurement routines: the columns of the measured matrix *)






Section FiniteDifferences.
Context {ar : Arith}.
Variable track : Measure.lattice -> option Particle.t
                 -> option (list (Qc * Qc)).
Variable rd0 : list (Qc * Qc).

(** The lattice on which corrector number [k] of [cors] is measured: the
    one left by the round trips of the correctors before it. *)
Let before (cors : list Element.t) (l : Measure.lattice) (k : nat)
  : Measure.lattice :=
  round_trips (corrector_brackets (firstn k cors)) l.



End FiniteDifferences.


